(** * dplyr data mask: a shallow embedding of [inst/include/dplyr/DataMask.h]

    The header defines the hybrid callback interface [IHybridCallback], the
    general binding layer [DataMask_bindings<Data>] with its two nested
    classes [HybridCallbackWeakProxy] and [GroupedHybridEval], the
    specialisation [DataMask_bindings<NaturalDataFrame>], and the mask
    [DataMask<Data>] with its [eval] entry point.

    C++ objects with identity live in a [World]: R environments, the
    [shared_ptr]-managed resolvers, the caller's slicing indices, the
    session's [LazySplitSubsets] object and the log of R warnings.  Member
    functions are state transformers whose outcome is a normal return, an R
    error travelling up the C++ stack, or undefined behaviour. *)

From stdpp Require Import gmap strings list fin_maps.
From Stdlib Require Import ZArith Lia.

Set Default Proof Using "Type".

(** ** R values *)

Abbreviation env_id := positive.
Abbreviation addr := positive.

(** The [SEXP]s that the header manipulates. *)
Inductive SEXP : Type :=
| R_NilValue
| R_UnboundValue
| IntegerSxp (v : list Z)
| SymSxp (name : string)
| EnvSxp (rho : env_id)
| DataPronoun (rho : env_id)
| OtherSxp (tag : nat).

Global Instance SEXP_eq_dec : EqDecision SEXP.
Proof. solve_decision. Defined.

(** ** C++ [int] *)

Definition INT_MAX : Z := 2147483647.

(** Two's complement reduction of a mathematical integer to a 32-bit [int]. *)
Definition wrap_int (z : Z) : Z := ((z + 2 ^ 31) `mod` 2 ^ 32 - 2 ^ 31)%Z.

(** [Rcpp::wrap(int)]: a length-one integer vector. *)
Definition wrap (n : Z) : SEXP := IntegerSxp [n].

(** ** Slicing indices *)

(** Modelled from the spec: the slicing index types ([Data::slicing_index],
    [NaturalSlicingIndex]) are declared in headers outside this file.  A
    slicing index identifies one group: a group ordinal and the ordered list
    of row positions belonging to it. *)
Record SlicingIndex : Type := {
  group_index : Z;
  rows : list Z
}.

Global Instance SlicingIndex_eq_dec : EqDecision SlicingIndex.
Proof. solve_decision. Defined.

(** Modelled from the spec: [indices.size()], the row count of the group,
    an [int]. *)
Definition size (i : SlicingIndex) : Z := wrap_int (Z.of_nat (length (rows i))).

(** Modelled from the spec: [indices.group()], the group ordinal, an
    [int]. *)
Definition group (i : SlicingIndex) : Z := group_index i.

(** A slicing index as the index providers build it: the ordinal counts
    groups from zero and, like the row count, fits an [int] with room for
    the [+ 1] of [DataMask::eval]. *)
Definition index_ok (i : SlicingIndex) : Prop :=
  (0 ≤ group_index i < INT_MAX)%Z ∧ (Z.of_nat (length (rows i)) ≤ INT_MAX)%Z.

Global Instance index_ok_dec i : Decision (index_ok i).
Proof. unfold index_ok. apply _. Defined.

(** ** The callback objects *)

(** [HybridCallbackWeakProxy]: its one member is
    [boost::weak_ptr<IHybridCallback> real], the address of the control block
    of the resolver it was built from. *)
Record HybridCallbackWeakProxy : Type := {
  weak_real : addr
}.

(** [GroupedHybridEval::HybridCallbackProxy]: its one member is the raw
    pointer [IHybridCallback* real]. *)
Record HybridCallbackProxy : Type := {
  proxy_real : addr
}.

(** [GroupedHybridEval].  [indices] is a [const Index*]: [None] is [NULL],
    [Some a] points at the caller's index object at address [a].  The member
    [subsets] is a reference to the session's [LazySplitSubsets], which the
    world holds. *)
Record GroupedHybridEval : Type := {
  indices : option addr;
  mask_env : SEXP;
  proxy : HybridCallbackProxy
}.

(** ** R environments *)

(** A variable of a frame is an ordinary binding, or an active binding
    installed by [bindrcpp::create_env_string_wrapped]; the latter carries
    the payload handed to the callback, here the external pointer to the
    [HybridCallbackWeakProxy] (the one element of the payload list). *)
Inductive Binding : Type :=
| Plain (v : SEXP)
| Active (payload : HybridCallbackWeakProxy).

Record Environment : Type := {
  enclos : env_id;
  frame : gmap string Binding
}.

(** ** The subset cache *)

(** Modelled from the spec: [LazySplitSubsets<Data>] is declared in
    [dplyr/data/LazySplitSubsets.h], outside this file.  It owns the dataset
    handle (ordered named columns) and, per variable name, the most recently
    materialised subset for the current group. *)
Record LazySplitSubsets : Type := {
  columns : list (string * list Z);
  resolved : gmap string SEXP
}.

(** ** Worlds and outcomes *)

(** [callbacks] is keyed by the identity of a [shared_ptr] control block, not
    by a machine address: it maps a control block to [Some g] while the
    resolver [g] it manages is alive and to [None] once that resolver has
    been destroyed.  A control block outlives its object for as long as a
    weak pointer refers to it, so a later [new] may well return the machine
    address of a destroyed resolver, but never the control block of one: an
    expired weak pointer stays expired. *)
Record World : Type := {
  envs : gmap env_id Environment;
  callbacks : gmap addr (option GroupedHybridEval);
  slicing : gmap addr SlicingIndex;
  subsets : LazySplitSubsets;
  warnings : list string
}.

(** R conditions of class error that travel through this code. *)
Inductive condition : Type :=
| UndeclaredVariable (name : string)
| EvalError (payload : SEXP).

Inductive fault : Type :=
| NullDereference
| DanglingReference.

Inductive outcome (A : Type) : Type :=
| Returns (a : A) (w : World)
| Throws (c : condition) (w : World)
| Undefined (f : fault).
Arguments Returns {A} a w.
Arguments Throws {A} c w.
Arguments Undefined {A} f.

Definition M (A : Type) : Type := World → outcome A.

Global Instance M_ret : MRet M := λ A a w, Returns a w.
Global Instance M_bind : MBind M := λ A B f m w,
  match m w with
  | Returns a w' => f a w'
  | Throws c w' => Throws c w'
  | Undefined u => Undefined u
  end.

Definition gets {A} (f : World → A) : M A := λ w, Returns (f w) w.
Definition modify (f : World → World) : M unit := λ w, Returns tt (f w).
Definition throw {A} (c : condition) : M A := λ w, Throws c w.
Definition undefined {A} (u : fault) : M A := λ _, Undefined u.

(** A function body as the sequence of its statements, run in order. *)
Fixpoint statements (body : list (M unit)) : M unit :=
  match body with
  | [] => mret tt
  | s :: body' => s ;; statements body'
  end.


(** World updates, one per component. *)
Definition set_envs (f : gmap env_id Environment → gmap env_id Environment)
    (w : World) : World :=
  {| envs := f (envs w); callbacks := callbacks w; slicing := slicing w;
     subsets := subsets w; warnings := warnings w |}.

Definition set_callbacks
    (f : gmap addr (option GroupedHybridEval) → gmap addr (option GroupedHybridEval))
    (w : World) : World :=
  {| envs := envs w; callbacks := f (callbacks w); slicing := slicing w;
     subsets := subsets w; warnings := warnings w |}.

Definition set_subsets (f : LazySplitSubsets → LazySplitSubsets)
    (w : World) : World :=
  {| envs := envs w; callbacks := callbacks w; slicing := slicing w;
     subsets := f (subsets w); warnings := warnings w |}.

Definition set_warnings (f : list string → list string) (w : World) : World :=
  {| envs := envs w; callbacks := callbacks w; slicing := slicing w;
     subsets := subsets w; warnings := f (warnings w) |}.

(** ** Host primitives *)

(** [Rcpp::warning]: the message joins the pending warnings and control
    returns to the caller. *)
Definition warning (msg : string) : M unit :=
  modify (set_warnings (λ l, l ++ [msg])).

(** [Rf_defineVar(Rf_install(name), value, rho)], also the assignment
    [env[name] = value] of [Rcpp::Environment]. *)
Definition defineVar (name : string) (value : SEXP) (rho : env_id) : M unit :=
  modify (set_envs (alter (λ e,
    {| enclos := enclos e; frame := <[name := Plain value]> (frame e) |}) rho)).

(** Removal of a variable from a frame (R's [rm]). *)
Definition removeVar (name : string) (rho : env_id) : M unit :=
  modify (set_envs (alter (λ e,
    {| enclos := enclos e; frame := delete name (frame e) |}) rho)).

(** Re-enclosing an environment (R's [parent.env<-]). *)
Definition setEnclos (rho parent : env_id) : M unit :=
  modify (set_envs (alter (λ e,
    {| enclos := parent; frame := frame e |}) rho)).

(** A new environment with the given frame and enclosure. *)
Definition alloc_env (parent : env_id) (fr : gmap string Binding) : M env_id :=
  λ w, let rho := fresh (dom (envs w)) in
       Returns rho (set_envs <[rho := {| enclos := parent; frame := fr |}]> w).

(** [Environment::new_child(hashed)]. *)
Definition new_child (parent : env_id) : M env_id := alloc_env parent ∅.

(** Modelled from the spec: [child_env(parent)] of [tools/utils.h], a header
    outside this file; the host primitive that creates a child scope of a
    given parent. *)
Definition child_env (parent : env_id) : M env_id := alloc_env parent ∅.

(** ** [LazySplitSubsets] operations *)

(** Modelled from the spec: [subsets.get_variable_names().get_vector()], the
    ordered list of declared variable names. *)
Definition get_variable_names (s : LazySplitSubsets) : list string :=
  (columns s).*1.

(** Modelled from the spec: the column registered under a name. *)
Fixpoint column_of (name : string) (cols : list (string * list Z))
    : option (list Z) :=
  match cols with
  | [] => None
  | (n, c) :: cols' => if decide (n = name) then Some c else column_of name cols'
  end.

Definition NA_INTEGER : Z := (- 2 ^ 31)%Z.

(** Modelled from the spec: materialisation gathers the rows of a column at
    the positions of the index (counted from zero); the spec leaves a
    position outside the column open, the model reads it as missing. *)
Definition gather (col : list Z) (positions : list Z) : list Z :=
  (λ p, if decide (0 ≤ p)%Z then default NA_INTEGER (col !! Z.to_nat p)
        else NA_INTEGER) <$> positions.

(** Modelled from the spec: [subsets.get_subset_data(i).get_data()], the
    whole column stored at position [i]. *)
Definition get_subset_data (s : LazySplitSubsets) (i : nat) : SEXP :=
  match columns s !! i with
  | Some (_, c) => IntegerSxp c
  | None => R_NilValue
  end.

(** Modelled from the spec: [subsets.get(name, indices, scope)].  A name that
    is not declared is an error.  A cached subset is returned as it is.
    Otherwise the subset is materialised, cached, and installed as an
    ordinary binding in the scope it was given. *)
Definition subsets_get (name : string) (i : SlicingIndex) (scope : SEXP)
    : M SEXP :=
  s ← gets subsets;
  match column_of name (columns s) with
  | None => throw (UndeclaredVariable name)
  | Some col =>
      match resolved s !! name with
      | Some v => mret v
      | None =>
          let v := IntegerSxp (gather col (rows i)) in
          modify (set_subsets (λ s,
            {| columns := columns s; resolved := <[name := v]> (resolved s) |})) ;;
          match scope with
          | EnvSxp rho => defineVar name v rho
          | _ => mret tt
          end ;;
          mret v
      end
  end.

(** Modelled from the spec: [subsets.clear()] drops all cached entries. *)
Definition subsets_clear : M unit :=
  modify (set_subsets (λ s, {| columns := columns s; resolved := ∅ |})).

(** Modelled from the spec: [subsets.update(indices, scope)], the cache side
    of an index change.  The spec has cached entries die at the next
    [update], which clears the cache and forces re-materialisation of any
    variable referenced in the next evaluation; the resolved scope is the
    cache of once-resolved values.  So every cached entry dies: its ordinary
    binding leaves the scope, and the next reference reaches the lazy
    binding again; then the cache is emptied. *)
Definition subsets_update (i : addr) (scope : env_id) : M unit :=
  s ← gets subsets;
  modify (set_envs (alter (λ e,
    {| enclos := enclos e;
       frame := filter (λ kv, resolved s !! kv.1 = None) (frame e) |}) scope)) ;;
  subsets_clear.

(** ** [GroupedHybridEval] *)

(** The constructor [GroupedHybridEval(subsets_)], run by [new] under a fresh
    [shared_ptr]: [indices(NULL)], [proxy(new HybridCallbackProxy(this))],
    [mask_env(R_NilValue)].  The key returned is that of the new control
    block.  The raw pointer [this] kept by the forwarding proxy is written
    as the same key: the proxy is owned by the resolver and dies with it, so
    the pointer is only ever followed while that control block manages the
    object it points to. *)
Definition GroupedHybridEval_new : M addr :=
  λ w, let this := fresh (dom (callbacks w)) in
       Returns this (set_callbacks <[this := Some
         {| indices := None; mask_env := R_NilValue;
            proxy := {| proxy_real := this |} |}]> w).

(** Reaching the object behind a pointer; a destroyed or never allocated
    object is undefined behaviour. *)
Definition deref_callback (this : addr) : M GroupedHybridEval :=
  λ w, match callbacks w !! this with
       | Some (Some g) => Returns g w
       | _ => Undefined DanglingReference
       end.

(** Reading the caller's index object behind a reference. *)
Definition deref_index (a : addr) : M SlicingIndex :=
  λ w, match slicing w !! a with
       | Some i => Returns i w
       | None => Undefined DanglingReference
       end.

(** [get_indices() const { return *indices; }] *)
Definition get_indices (this : addr) : M SlicingIndex :=
  g ← deref_callback this;
  match indices g with
  | None => undefined NullDereference
  | Some a => deref_index a
  end.

(** [get_subset(name) { return subsets.get(name, get_indices(), mask_env); }] *)
Definition GroupedHybridEval_get_subset (this : addr) (name : string) : M SEXP :=
  i ← get_indices this;
  g ← deref_callback this;
  subsets_get name i (mask_env g).

(** [set_indices(indices_) { indices = &indices_; }] *)
Definition set_indices (this : addr) (indices_ : addr) : M unit :=
  g ← deref_callback this;
  modify (set_callbacks <[this := Some
    {| indices := Some indices_; mask_env := mask_env g; proxy := proxy g |}]>).

(** [set_env(env) { mask_env = env; }] *)
Definition set_env (this : addr) (env : SEXP) : M unit :=
  g ← deref_callback this;
  modify (set_callbacks <[this := Some
    {| indices := indices g; mask_env := env; proxy := proxy g |}]>).

(** [HybridCallbackProxy::get_subset(name) { return real->get_subset(name); }]
    where [real] is the enclosing [GroupedHybridEval]. *)
Definition HybridCallbackProxy_get_subset (p : HybridCallbackProxy)
    (name : string) : M SEXP :=
  GroupedHybridEval_get_subset (proxy_real p) name.

(** ** [HybridCallbackWeakProxy] *)

(** [weak_ptr::lock()]: the address of the resolver when it is still alive. *)
Definition lock (p : HybridCallbackWeakProxy) : M (option addr) :=
  gets (λ w, match callbacks w !! weak_real p with
             | Some (Some _) => Some (weak_real p)
             | _ => None
             end).

(** [HybridCallbackWeakProxy::get_subset]:
<<
    if (boost::shared_ptr<IHybridCallback> lock = real.lock()) {
      return lock.get()->get_subset(name);
    }
    else {
      warning("Hybrid callback proxy out of scope");
      return R_NilValue;
    }
>> *)
Definition HybridCallbackWeakProxy_get_subset (p : HybridCallbackWeakProxy)
    (name : string) : M SEXP :=
  l ← lock p;
  match l with
  | Some real => GroupedHybridEval_get_subset real name
  | None =>
      warning "Hybrid callback proxy out of scope" ;;
      mret R_NilValue
  end.

(** ** [IHybridCallback] *)

(** The interface has three implementations in this header; a virtual call
    dispatches on the dynamic class of the receiver. *)
Inductive IHybridCallback : Type :=
| WeakProxy (p : HybridCallbackWeakProxy)
| StrongProxy (p : HybridCallbackProxy)
| Resolver (this : addr).

Definition get_subset (cb : IHybridCallback) (name : string) : M SEXP :=
  match cb with
  | WeakProxy p => HybridCallbackWeakProxy_get_subset p name
  | StrongProxy p => HybridCallbackProxy_get_subset p name
  | Resolver this => GroupedHybridEval_get_subset this name
  end.

(** [DataMask_bindings::hybrid_get_callback(name, payload)], the function
    every active binding runs:
<<
    XPtr<HybridCallbackWeakProxy> callback_ = payload[0];
    return callback_->get_subset(SymbolString(name));
>> *)
Definition hybrid_get_callback (name : string)
    (payload : HybridCallbackWeakProxy) : M SEXP :=
  get_subset (WeakProxy payload) name.

(** [bindrcpp::create_env_string_wrapped(names, fun, payload, enclos)]: a new
    environment under [enclos] whose frame has one active binding per name,
    each calling [fun(name, payload)].  The only [fun] of this header is
    [hybrid_get_callback]. *)
Definition create_env_string_wrapped (names : list string)
    (payload : HybridCallbackWeakProxy) (parent : env_id) : M env_id :=
  alloc_env parent (list_to_map ((λ n, (n, Active payload)) <$> names)).

(** Modelled from the spec: [rlang_api().new_data_mask(bottom, top, parent)]
    belongs to the host (rlang), outside this repository.  The spec has the
    constructor build an evaluation scope layered on top of [bottom()] and
    [top()], with creation of a child scope as the host primitive: the model
    is a new environment whose enclosure is [bottom].  Whatever bookkeeping
    bindings the host keeps in that environment are not modelled, and no
    property below says that the evaluation scope binds nothing else. *)
Definition new_data_mask (bottom top : SEXP) (parent : env_id) : M env_id :=
  match bottom with
  | EnvSxp b => alloc_env b ∅
  | _ => throw (EvalError bottom)
  end.

(** Modelled from the spec: [rlang_api().as_data_pronoun(x)], of the host
    as well; the data pronoun backed by the scope it is given. *)
Definition as_data_pronoun (x : SEXP) : M SEXP :=
  match x with
  | EnvSxp rho => mret (DataPronoun rho)
  | _ => throw (EvalError x)
  end.

(** Variable lookup as R performs it ([Rf_findVar] followed by the forcing of
    an active binding): frames are searched from [rho] outwards; an ordinary
    binding yields its value, an active binding runs its callback.  The chain
    of enclosures of a heap of [n] environments has at most [n] links. *)
Fixpoint findVar_from (fuel : nat) (name : string) (rho : env_id) : M SEXP :=
  λ w,
    match fuel with
    | O => Returns R_UnboundValue w
    | S fuel' =>
        match envs w !! rho with
        | None => Returns R_UnboundValue w
        | Some e =>
            match frame e !! name with
            | Some (Plain v) => Returns v w
            | Some (Active payload) => hybrid_get_callback name payload w
            | None => findVar_from fuel' name (enclos e) w
            end
        end
    end.

Definition findVar (name : string) (rho : env_id) : M SEXP :=
  λ w, findVar_from (base.size (envs w)) name rho w.

(** ** The external evaluation engine *)

(** The engine is a black box to the mask.  What it can do to the mask's
    world goes through the host primitives: look variables up (which is how
    it calls back into the resolution path), define and remove variables,
    create environments, re-enclose environments, signal warnings; it ends
    with a value or an error.  A run of the engine on an expression is a
    finite tree of such requests. *)
Inductive Prog : Type :=
| Ret (v : SEXP)
| Err (c : condition)
| FindVar (name : string) (rho : env_id) (k : SEXP → Prog)
| DefineVar (name : string) (v : SEXP) (rho : env_id) (k : Prog)
| RemoveVar (name : string) (rho : env_id) (k : Prog)
| NewEnv (parent : env_id) (k : env_id → Prog)
| SetEnclos (rho : env_id) (parent : env_id) (k : Prog)
| Warn (msg : string) (k : Prog).

Fixpoint run (p : Prog) : M SEXP :=
  match p with
  | Ret v => mret v
  | Err c => throw c
  | FindVar name rho k => v ← findVar name rho; run (k v)
  | DefineVar name v rho k => defineVar name v rho ;; run k
  | RemoveVar name rho k => removeVar name rho ;; run k
  | NewEnv parent k => rho ← new_child parent; run (k rho)
  | SetEnclos rho parent k => setEnclos rho parent ;; run k
  | Warn msg k => warning msg ;; run k
  end.

(** ** [DataMask_bindings<Data>], the general case *)

Record DataMask_bindings : Type := {
  mask_active : env_id;
  mask_resolved : env_id;
  callback : addr
}.

(** The constructor [DataMask_bindings(parent_env, subsets_)]:
<<
    subsets(subsets_), callback(new GroupedHybridEval(subsets))
    CharacterVector names = subsets.get_variable_names().get_vector();
    XPtr<HybridCallbackWeakProxy> p(new HybridCallbackWeakProxy(callback));
    List payload = List::create(p);
    mask_active = bindrcpp::create_env_string_wrapped(
                    names, &DataMask_bindings::hybrid_get_callback,
                    payload, parent_env);
    mask_resolved = mask_active.new_child(true);
    subsets.clear();
    callback->set_env(mask_resolved);
>> *)
Definition DataMask_bindings_new (parent_env : env_id) : M DataMask_bindings :=
  callback ← GroupedHybridEval_new;
  names ← gets (λ w, get_variable_names (subsets w));
  let p := {| weak_real := callback |} in
  mask_active ← create_env_string_wrapped names p parent_env;
  mask_resolved ← new_child mask_active;
  subsets_clear ;;
  set_env callback (EnvSxp mask_resolved) ;;
  mret {| mask_active := mask_active; mask_resolved := mask_resolved;
          callback := callback |}.

(** The destructor: [subsets.clear()], then the members go; [callback] is
    the only owner of the resolver, which dies with it. *)
Definition DataMask_bindings_delete (b : DataMask_bindings) : M unit :=
  subsets_clear ;;
  modify (set_callbacks <[callback b := None]>).

Definition DataMask_bindings_bottom (b : DataMask_bindings) : SEXP :=
  EnvSxp (mask_resolved b).

Definition DataMask_bindings_top (b : DataMask_bindings) : SEXP :=
  EnvSxp (mask_active b).

(** The body of [update(indices)], statement by statement:
<<
    subsets.update(indices, mask_resolved);
    callback->set_indices(indices);
>> *)
Definition DataMask_bindings_update_body (b : DataMask_bindings)
    (indices : addr) : list (M unit) :=
  [ subsets_update indices (mask_resolved b);
    set_indices (callback b) indices ].

(** [update(indices)] runs its body. *)
Definition DataMask_bindings_update (b : DataMask_bindings) (indices : addr)
    : M unit :=
  statements (DataMask_bindings_update_body b indices).

(** ** [DataMask_bindings<NaturalDataFrame>] *)

Record DataMask_bindings_Natural : Type := {
  mask_bindings : env_id
}.

(** The loop of the constructor, from position [i] on:
    [Rf_defineVar(Rf_install(names[i]), subsets.get_subset_data(i).get_data(),
    mask_bindings)]. *)
Fixpoint install_columns (names : list string) (i : nat) (rho : env_id)
    : M unit :=
  match names with
  | [] => mret tt
  | name :: names' =>
      data ← gets (λ w, get_subset_data (subsets w) i);
      defineVar name data rho ;;
      install_columns names' (S i) rho
  end.

Definition Natural_new (parent_env : env_id) : M DataMask_bindings_Natural :=
  mask_bindings ← child_env parent_env;
  names ← gets (λ w, get_variable_names (subsets w));
  install_columns names 0 mask_bindings ;;
  mret {| mask_bindings := mask_bindings |}.

(** [void update(const NaturalSlicingIndex&) {}] *)
Definition Natural_update (b : DataMask_bindings_Natural) (indices : addr)
    : M unit :=
  mret tt.

Definition Natural_bottom (b : DataMask_bindings_Natural) : SEXP :=
  EnvSxp (mask_bindings b).

Definition Natural_top (b : DataMask_bindings_Natural) : SEXP :=
  EnvSxp (mask_bindings b).

(** ** [DataMask<Data>] *)

(** What the template [DataMask<Data>] uses of [DataMask_bindings<Data>]. *)
Class Bindings (B : Type) : Type := {
  bindings_new : env_id → M B;
  update : B → addr → M unit;
  bottom : B → SEXP;
  top : B → SEXP
}.

Global Instance General_Bindings : Bindings DataMask_bindings := {|
  bindings_new := DataMask_bindings_new;
  update := DataMask_bindings_update;
  bottom := DataMask_bindings_bottom;
  top := DataMask_bindings_top
|}.

Global Instance Natural_Bindings : Bindings DataMask_bindings_Natural := {|
  bindings_new := Natural_new;
  update := Natural_update;
  bottom := Natural_bottom;
  top := Natural_top
|}.

Record DataMask (B : Type) : Type := {
  bindings : B;
  overscope : env_id
}.
Arguments bindings {B} _.
Arguments overscope {B} _.

Section DataMask.
Context {B : Type} `{!Bindings B}.

(** The engine behind [Rcpp_eval]: the requests it makes on an expression
    and an environment. *)
Variable engine : SEXP → env_id → Prog.

Definition Rcpp_eval (expr : SEXP) (env : env_id) : M SEXP :=
  run (engine expr env).

(** The constructor [DataMask(subsets, env)]:
<<
  bindings(env, subsets),
  overscope(internal::rlang_api().new_data_mask(bindings.bottom(), bindings.top(), env))
  overscope[".data"] = internal::rlang_api().as_data_pronoun(bindings.top());
>> *)
Definition DataMask_new (env : env_id) : M (DataMask B) :=
  bindings ← bindings_new env;
  overscope ← new_data_mask (bottom bindings) (top bindings) env;
  pronoun ← as_data_pronoun (top bindings);
  defineVar ".data" pronoun overscope ;;
  mret {| bindings := bindings; overscope := overscope |}.

(** [eval(expr, indices)]:
<<
  bindings.update(indices);
  overscope["..group_size"] = indices.size();
  overscope["..group_number"] = indices.group() + 1;
  return Rcpp_eval(expr, overscope);
>> *)
Definition eval (mask : DataMask B) (expr : SEXP) (indices : addr) : M SEXP :=
  update (bindings mask) indices ;;
  i ← deref_index indices;
  defineVar "..group_size" (wrap (size i)) (overscope mask) ;;
  i ← deref_index indices;
  defineVar "..group_number" (wrap (wrap_int (group i + 1))) (overscope mask) ;;
  Rcpp_eval expr (overscope mask).

End DataMask.

(** ** Observations on a world *)

(** The frame of an environment. *)
Definition frame_of (rho : env_id) (w : World) : gmap string Binding :=
  from_option frame ∅ (envs w !! rho).

(** The index pointer held by a live resolver. *)
Definition installed_index (this : addr) (w : World) : option addr :=
  match callbacks w !! this with
  | Some (Some g) => indices g
  | _ => None
  end.


(** The world in which [DataMask::eval] hands the expression to the engine:
    the two assignments to the evaluation scope have been made. *)
Definition with_metadata (i : SlicingIndex) (scope : env_id) (w : World)
    : World :=
  set_envs (alter (λ e, {| enclos := enclos e;
      frame := <["..group_number" := Plain (wrap (wrap_int (group i + 1)))]>
                 (<["..group_size" := Plain (wrap (size i))]> (frame e)) |})
    scope) w.

(** What a computation leaves alone: the resolvers, the caller's indices and
    the dataset; environments are never freed. *)
Record stable (w w' : World) : Prop := {
  stable_callbacks : callbacks w' = callbacks w;
  stable_slicing : slicing w' = slicing w;
  stable_columns : columns (subsets w') = columns (subsets w);
  stable_envs : dom (envs w) ⊆ dom (envs w')
}.

Definition preserves {A} (m : M A) : Prop :=
  ∀ w, match m w with
       | Returns _ w' | Throws _ w' => stable w w'
       | Undefined _ => True
       end.

(** The warning of a stale weak proxy. *)
Definition stale_warning : string := "Hybrid callback proxy out of scope".

(** The worlds an engine run can end in. *)
Definition ends_in {A} (o : outcome A) (w' : World) : Prop :=
  match o with
  | Returns _ v | Throws _ v => v = w'
  | Undefined _ => False
  end.

(** Every cached subset is the gather of its column at the rows of [i]. *)
Definition coherent (i : SlicingIndex) (w : World) : Prop :=
  ∀ name v, resolved (subsets w) !! name = Some v →
    ∃ col, column_of name (columns (subsets w)) = Some col
           ∧ v = IntegerSxp (gather col (rows i)).

(** A world of one group's evaluation: the index object at [a] holds [i],
    every live resolver has [a] installed, and the cache is coherent with
    [i]. *)
Record session (a : addr) (i : SlicingIndex) (w : World) : Prop := {
  session_index : slicing w !! a = Some i;
  session_resolvers : ∀ cb g, callbacks w !! cb = Some (Some g) → indices g = Some a;
  session_coherent : coherent i w
}.

(** A property of worlds that a computation maintains. *)
Definition keeps (P : World → Prop) {A} (m : M A) : Prop :=
  ∀ w, P w → match m w with
             | Returns _ w' | Throws _ w' => P w'
             | Undefined _ => True
             end.

(** The frame the constructor loop builds from a frame [fr]. *)
Definition installed (cols : list (string * list Z)) (fr : gmap string Binding)
    : gmap string Binding :=
  foldl (λ fr nc, <[nc.1 := Plain (IntegerSxp nc.2)]> fr) fr cols.

(** ** A session for the examples *)

(** An engine that evaluates a symbol by looking it up from the scope, an
    unbound symbol being an error, and that evaluates [OtherSxp n] by
    defining the variable [seen] in the scope. *)
Definition example_engine (expr : SEXP) (env : env_id) : Prog :=
  match expr with
  | SymSxp name =>
      FindVar name env (λ v,
        match v with
        | R_UnboundValue => Err (EvalError expr)
        | _ => Ret v
        end)
  | OtherSxp n => DefineVar "seen" (wrap (Z.of_nat n)) env (Ret (wrap (Z.of_nat n)))
  | _ => Ret expr
  end.

Definition example_index : SlicingIndex :=
  {| group_index := 4; rows := [2; 5; 7]%Z |}.

(** A world with one environment, a dataset of two columns of eight rows
    and two index objects. *)
Definition example_world : World :=
  {| envs := {[ 1%positive := {| enclos := 1%positive; frame := ∅ |} ]};
     callbacks := ∅;
     slicing := {[ 1%positive := example_index;
                   2%positive := {| group_index := 0; rows := [0; 1]%Z |} ]};
     subsets := {| columns := [("x", [10; 20; 30; 40; 50; 60; 70; 80]%Z);
                               ("y", [1; 2; 3; 4; 5; 6; 7; 8]%Z)];
                   resolved := ∅ |};
     warnings := [] |}.

Definition world_of {A} (o : outcome A) : World :=
  match o with
  | Returns _ w | Throws _ w => w
  | Undefined _ => example_world
  end.

(** The mask [DataMask_new] builds over the general layer in the example
    world, and the world it leaves. *)
Definition example_mask : DataMask DataMask_bindings :=
  {| bindings := {| mask_active := 2; mask_resolved := 3; callback := 1 |};
     overscope := 4 |}.

Definition example_built : World :=
  world_of (DataMask_new (B := DataMask_bindings) 1%positive example_world).

Definition example_resolver : GroupedHybridEval :=
  {| indices := None; mask_env := EnvSxp 3; proxy := {| proxy_real := 1 |} |}.

Definition example_scope : Environment :=
  {| enclos := 3; frame := {[ ".data" := Plain (DataPronoun 2) ]} |}.

(** The same after [update] with the first index object. *)
Definition example_updated : World :=
  world_of (update (bindings example_mask) 1%positive example_built).

(** The mask over the single-group layer in the example world. *)
Definition example_natural_mask : DataMask DataMask_bindings_Natural :=
  {| bindings := {| mask_bindings := 2 |}; overscope := 3 |}.

Definition example_natural_built : World :=
  world_of (DataMask_new (B := DataMask_bindings_Natural) 1%positive example_world).

(** The example world with a variable [z] in the scope the mask is built
    under, and the world the constructor leaves from it. *)
Definition example_world_z : World :=
  set_envs <[1%positive := {| enclos := 1%positive;
                              frame := {[ "z" := Plain (wrap 9) ]} |}]>
    example_world.

Definition example_built_z : World :=
  world_of (DataMask_new (B := DataMask_bindings) 1%positive example_world_z).

(** The updated example world once the caller's first index object is
    gone. *)
Definition example_freed : World :=
  {| envs := envs example_updated; callbacks := callbacks example_updated;
     slicing := delete 1%positive (slicing example_updated);
     subsets := subsets example_updated; warnings := warnings example_updated |}.

(** The example world after the binding layer of the mask is destroyed. *)
Definition example_destroyed : World :=
  world_of (DataMask_bindings_delete (bindings example_mask) example_updated).

(** The example world after the column [x] has been evaluated for the first
    index. *)
Definition example_evaluated : World :=
  world_of (eval example_engine example_mask (SymSxp "x") 1%positive example_built).


(** ** The scope chain of a mask *)

(** The environments of a mask over the general layer, as its constructors
    link them: the evaluation scope is enclosed by the resolved scope, the
    resolved scope by the active scope, the active scope by the scope the
    mask was built under; the three are distinct environments. *)
Record scope_chain (parent : env_id) (mask : DataMask DataMask_bindings)
    (w : World) : Prop := {
  chain_overscope : ∃ e, envs w !! overscope mask = Some e
                         ∧ enclos e = mask_resolved (bindings mask);
  chain_resolved : ∃ e, envs w !! mask_resolved (bindings mask) = Some e
                        ∧ enclos e = mask_active (bindings mask);
  chain_active : ∃ e, envs w !! mask_active (bindings mask) = Some e
                      ∧ enclos e = parent;
  chain_distinct : NoDup [overscope mask; mask_resolved (bindings mask);
                          mask_active (bindings mask)]
}.

(** The resolver of a general binding layer as its constructor leaves it and
    every later member call keeps it: alive, targeting the resolved scope,
    and holding a forwarding proxy on itself. *)
Definition resolver_ok (b : DataMask_bindings) (w : World) : Prop :=
  ∃ g, callbacks w !! callback b = Some (Some g)
       ∧ mask_env g = EnvSxp (mask_resolved b)
       ∧ proxy g = {| proxy_real := callback b |}.

(** The environments of a mask over the single-group layer. *)
Record natural_chain (parent : env_id) (mask : DataMask DataMask_bindings_Natural)
    (w : World) : Prop := {
  natural_overscope : ∃ e, envs w !! overscope mask = Some e
                           ∧ enclos e = mask_bindings (bindings mask);
  natural_bindings : ∃ e, envs w !! mask_bindings (bindings mask) = Some e
                          ∧ enclos e = parent;
  natural_distinct : overscope mask ≠ mask_bindings (bindings mask)
}.

(** Environments persist and keep their enclosure. *)
Definition links (w w' : World) : Prop :=
  ∀ rho e, envs w !! rho = Some e →
    ∃ e', envs w' !! rho = Some e' ∧ enclos e' = enclos e.

(** * Properties *)

Ltac unfold_M :=
  unfold mbind, M_bind, mret, M_ret, gets, modify, throw, undefined in *.

Lemma stable_refl w : stable w w.
Proof. by split. Qed.

Lemma stable_trans w1 w2 w3 : stable w1 w2 → stable w2 w3 → stable w1 w3.
Proof.
  intros [a b c d] [a' b' c' d']. split; [congruence..|set_solver].
Qed.

Lemma preserves_ret {A} (a : A) : preserves (mret a).
Proof. intros w. apply stable_refl. Qed.

Lemma preserves_throw {A} c : preserves (@throw A c).
Proof. intros w. apply stable_refl. Qed.

Lemma preserves_bind {A B} (m : M A) (f : A → M B) :
  preserves m → (∀ a, preserves (f a)) → preserves (m ≫= f).
Proof.
  intros Hm Hf w. unfold_M. specialize (Hm w).
  destruct (m w) as [a w'| |]; [|done..].
  specialize (Hf a w'). destruct (f a w'); eauto using stable_trans.
Qed.

Lemma dom_alter_env (f : Environment → Environment) rho
    (m : gmap env_id Environment) : dom (alter f rho m) = dom m.
Proof. apply dom_alter_L. Qed.

Lemma preserves_defineVar name v rho : preserves (defineVar name v rho).
Proof. intros w. split; simpl; try done. by rewrite dom_alter_env. Qed.

Lemma preserves_removeVar name rho : preserves (removeVar name rho).
Proof. intros w. split; simpl; try done. by rewrite dom_alter_env. Qed.

Lemma preserves_setEnclos rho parent : preserves (setEnclos rho parent).
Proof. intros w. split; simpl; try done. by rewrite dom_alter_env. Qed.

Lemma preserves_warning msg : preserves (warning msg).
Proof. intros w. by split. Qed.

Lemma preserves_alloc_env parent fr : preserves (alloc_env parent fr).
Proof.
  intros w. split; simpl; try done. rewrite dom_insert_L. set_solver.
Qed.

Lemma preserves_subsets_get name i scope : preserves (subsets_get name i scope).
Proof.
  intros w. unfold subsets_get. unfold_M.
  destruct (column_of name (columns (subsets w))); [|apply stable_refl].
  destruct (resolved (subsets w) !! name); [apply stable_refl|].
  destruct scope; simpl; split; simpl; try done.
  by rewrite dom_alter_env.
Qed.

Lemma preserves_deref_callback this : preserves (deref_callback this).
Proof.
  intros w. unfold deref_callback.
  destruct (callbacks w !! this) as [[g|]|]; first [apply stable_refl|done].
Qed.

Lemma preserves_deref_index a : preserves (deref_index a).
Proof.
  intros w. unfold deref_index.
  destruct (slicing w !! a); first [apply stable_refl|done].
Qed.

Lemma preserves_get_indices this : preserves (get_indices this).
Proof.
  apply preserves_bind; [apply preserves_deref_callback|].
  intros g. destruct (indices g); [apply preserves_deref_index|done].
Qed.

Lemma preserves_GroupedHybridEval_get_subset this name :
  preserves (GroupedHybridEval_get_subset this name).
Proof.
  apply preserves_bind; [apply preserves_get_indices|]. intros i.
  apply preserves_bind; [apply preserves_deref_callback|]. intros g.
  apply preserves_subsets_get.
Qed.

Lemma preserves_weak_get_subset p name :
  preserves (HybridCallbackWeakProxy_get_subset p name).
Proof.
  apply preserves_bind; [intros w; apply stable_refl|].
  intros [real|].
  - apply preserves_GroupedHybridEval_get_subset.
  - apply preserves_bind; [apply preserves_warning|].
    intros _. apply preserves_ret.
Qed.

Lemma preserves_findVar_from fuel name rho :
  preserves (findVar_from fuel name rho).
Proof.
  revert rho. induction fuel as [|fuel IH]; intros rho w; simpl.
  { apply stable_refl. }
  destruct (envs w !! rho) as [e|]; [|apply stable_refl].
  destruct (frame e !! name) as [[v|payload]|].
  - apply stable_refl.
  - apply (preserves_weak_get_subset payload name w).
  - apply IH.
Qed.

Lemma preserves_findVar name rho : preserves (findVar name rho).
Proof. intros w. apply (preserves_findVar_from _ name rho w). Qed.

(** The engine cannot reach the resolvers, the caller's indices or the
    dataset. *)
Lemma preserves_run p : preserves (run p).
Proof.
  induction p as [v|c|name rho k IH|name v rho k IH|name rho k IH|parent k IH|rho parent k IH|msg k IH];
    simpl.
  - apply preserves_ret.
  - apply preserves_throw.
  - apply preserves_bind; [apply preserves_findVar|done].
  - apply preserves_bind; [apply preserves_defineVar|done].
  - apply preserves_bind; [apply preserves_removeVar|done].
  - apply preserves_bind; [apply preserves_alloc_env|done].
  - apply preserves_bind; [apply preserves_setEnclos|done].
  - apply preserves_bind; [apply preserves_warning|done].
Qed.

(** ** The weak proxy *)

Lemma weak_get_subset_cases p name w :
  HybridCallbackWeakProxy_get_subset p name w =
    match callbacks w !! weak_real p with
    | Some (Some _) => GroupedHybridEval_get_subset (weak_real p) name w
    | _ => Returns R_NilValue (set_warnings (λ l, l ++ [stale_warning]) w)
    end.
Proof.
  unfold HybridCallbackWeakProxy_get_subset, lock. unfold_M.
  by destruct (callbacks w !! weak_real p) as [[g|]|].
Qed.

Lemma delete_expires b w w' :
  DataMask_bindings_delete b w = Returns tt w' →
  callbacks w' !! callback b = Some None.
Proof.
  unfold DataMask_bindings_delete, subsets_clear. unfold_M.
  intros [= <-]. simpl. apply lookup_insert_eq.
Qed.

(** C1.  Once the binding layer that owns the resolver has been destroyed,
    a request through a weak proxy built on that resolver returns normally
    for every variable name: the result is [R_NilValue], and the only change
    to the world is one more pending warning.  In any world a weak proxy
    forwards to the resolver exactly when the lock succeeds, and otherwise
    warns and returns [R_NilValue]. *)
Theorem weak_proxy_stale_access_is_recoverable
    (b : DataMask_bindings) (w w' : World) (name : string)
    (Hdestroyed : DataMask_bindings_delete b w = Returns tt w') :
  get_subset (WeakProxy {| weak_real := callback b |}) name w'
    = Returns R_NilValue (set_warnings (λ l, l ++ [stale_warning]) w')
  ∧ hybrid_get_callback name {| weak_real := callback b |} w'
    = Returns R_NilValue (set_warnings (λ l, l ++ [stale_warning]) w')
  ∧ ∀ (p : HybridCallbackWeakProxy) (v : World),
      get_subset (WeakProxy p) name v =
        match callbacks v !! weak_real p with
        | Some (Some _) => get_subset (Resolver (weak_real p)) name v
        | _ => Returns R_NilValue (set_warnings (λ l, l ++ [stale_warning]) v)
        end.
Proof.
  apply delete_expires in Hdestroyed.
  assert (get_subset (WeakProxy {| weak_real := callback b |}) name w'
    = Returns R_NilValue (set_warnings (λ l, l ++ [stale_warning]) w')) as Hnil.
  { simpl. rewrite weak_get_subset_cases. simpl. by rewrite Hdestroyed. }
  split; [exact Hnil|]. split; [exact Hnil|].
  intros p v. simpl. apply weak_get_subset_cases.
Qed.

(** ** Construction of the general binding layer *)

Lemma lookup_active_frame (names : list string) (p : HybridCallbackWeakProxy)
    (name : string) :
  (list_to_map ((λ n, (n, Active p)) <$> names) : gmap string Binding) !! name
    = if decide (name ∈ names) then Some (Active p) else None.
Proof.
  induction names as [|n names IH].
  { simpl. apply lookup_empty. }
  rewrite fmap_cons, list_to_map_cons.
  destruct (decide (n = name)) as [->|Hne].
  - simpl. rewrite lookup_insert_eq. by rewrite decide_True by set_solver.
  - simpl. rewrite lookup_insert_ne by done. rewrite IH.
    destruct (decide (name ∈ names)).
    + by rewrite decide_True by set_solver.
    + rewrite decide_False; [done|]. rewrite not_elem_of_cons. by split.
Qed.

(** The world the constructor of the general layer builds, step by step. *)
Lemma DataMask_bindings_new_eq parent w :
  let cb := fresh (dom (callbacks w)) in
  let act := fresh (dom (envs w)) in
  let res := fresh ({[act]} ∪ dom (envs w)) in
  DataMask_bindings_new parent w =
    Returns {| mask_active := act; mask_resolved := res; callback := cb |}
      {| envs :=
           <[res := {| enclos := act; frame := ∅ |}]>
             (<[act := {| enclos := parent;
                          frame := list_to_map ((λ n, (n, Active {| weak_real := cb |}))
                                     <$> get_variable_names (subsets w)) |}]>
                (envs w));
         callbacks :=
           <[cb := Some {| indices := None; mask_env := EnvSxp res;
                           proxy := {| proxy_real := cb |} |}]> (callbacks w);
         slicing := slicing w;
         subsets := {| columns := columns (subsets w); resolved := ∅ |};
         warnings := warnings w |}.
Proof.
  intros cb act res.
  unfold DataMask_bindings_new, GroupedHybridEval_new, create_env_string_wrapped,
    new_child, alloc_env, subsets_clear, set_env, deref_callback.
  unfold_M. simpl. rewrite dom_insert_L. fold act. fold cb. fold res.
  rewrite lookup_insert_eq. unfold set_callbacks, set_envs, set_subsets. simpl.
  by rewrite insert_insert_eq.
Qed.

(** C5.  From every world the constructor of the general binding layer
    returns.  The active scope is new, sits under the parent scope and binds
    exactly the declared variable names, each by an active binding whose
    payload is the weak proxy on the layer's resolver; the resolved scope is
    new, empty and a child of the active scope; the subset cache is empty;
    the resolver's target scope is the resolved scope and no index is
    installed; [bottom] is the resolved scope and [top] the active one. *)
Theorem DataMask_bindings_construction (parent : env_id) (w : World) :
  ∃ (b : DataMask_bindings) (w' : World),
    DataMask_bindings_new parent w = Returns b w'
    ∧ envs w !! mask_active b = None
    ∧ envs w !! mask_resolved b = None
    ∧ mask_active b ≠ mask_resolved b
    ∧ callbacks w !! callback b = None
    ∧ (∃ fr, envs w' !! mask_active b = Some {| enclos := parent; frame := fr |}
        ∧ ∀ name, fr !! name =
            if decide (name ∈ get_variable_names (subsets w))
            then Some (Active {| weak_real := callback b |}) else None)
    ∧ envs w' !! mask_resolved b = Some {| enclos := mask_active b; frame := ∅ |}
    ∧ (∀ rho, rho ≠ mask_active b → rho ≠ mask_resolved b →
         envs w' !! rho = envs w !! rho)
    ∧ resolved (subsets w') = ∅
    ∧ columns (subsets w') = columns (subsets w)
    ∧ callbacks w' !! callback b =
        Some (Some {| indices := None; mask_env := EnvSxp (mask_resolved b);
                      proxy := {| proxy_real := callback b |} |})
    ∧ bottom b = EnvSxp (mask_resolved b)
    ∧ top b = EnvSxp (mask_active b).
Proof.
  eexists _, _. split; [apply DataMask_bindings_new_eq|]. simpl.
  set (act := fresh (dom (envs w))).
  set (res := fresh ({[act]} ∪ dom (envs w))).
  assert (act ∉ dom (envs w)) as Hact by apply is_fresh.
  assert (res ∉ {[act]} ∪ dom (envs w)) as Hres by apply is_fresh.
  assert (act ≠ res) as Hne by set_solver.
  repeat split.
  - by apply not_elem_of_dom.
  - apply not_elem_of_dom. set_solver.
  - done.
  - apply not_elem_of_dom, is_fresh.
  - eexists. split.
    + rewrite lookup_insert_ne by done. by rewrite lookup_insert_eq.
    + intros name. apply lookup_active_frame.
  - by rewrite lookup_insert_eq.
  - intros rho H1 H2. by rewrite !lookup_insert_ne.
  - by rewrite lookup_insert_eq.
Qed.

(** ** Lookups and columns *)

(** Distinct environments of a heap are counted by its size. *)
Lemma env_count (l : list env_id) (w : World) :
  NoDup l → (∀ rho, rho ∈ l → is_Some (envs w !! rho)) →
  length l ≤ base.size (envs w).
Proof.
  intros Hnd Hin. rewrite <- size_dom, <- (size_list_to_set (C := gset env_id) l Hnd).
  apply subseteq_size. intros rho Hrho. apply elem_of_dom, Hin.
  by apply elem_of_list_to_set in Hrho.
Qed.

(** A frame that does not bind the name passes the lookup to its enclosure. *)
Lemma findVar_from_skip fuel name rho w e :
  envs w !! rho = Some e → frame e !! name = None →
  findVar_from (S fuel) name rho w = findVar_from fuel name (enclos e) w.
Proof. intros He Hf. simpl. by rewrite He, Hf. Qed.

Lemma findVar_from_active fuel name rho w e payload :
  envs w !! rho = Some e → frame e !! name = Some (Active payload) →
  findVar_from (S fuel) name rho w = hybrid_get_callback name payload w.
Proof. intros He Hf. simpl. by rewrite He, Hf. Qed.

Lemma findVar_from_plain fuel name rho w e v :
  envs w !! rho = Some e → frame e !! name = Some (Plain v) →
  findVar_from (S fuel) name rho w = Returns v w.
Proof. intros He Hf. simpl. by rewrite He, Hf. Qed.

Lemma column_of_app name cols1 cols2 :
  column_of name (cols1 ++ cols2) =
    match column_of name cols1 with
    | Some c => Some c
    | None => column_of name cols2
    end.
Proof.
  induction cols1 as [|[n c] cols1 IH]; simpl; [done|].
  by destruct (decide (n = name)).
Qed.

Lemma column_of_None name cols : name ∉ cols.*1 → column_of name cols = None.
Proof.
  induction cols as [|[n c] cols IH]; simpl; [done|].
  rewrite not_elem_of_cons. intros [Hne Hnot].
  rewrite decide_False by done. by apply IH.
Qed.

Lemma column_of_Some name cols :
  name ∈ cols.*1 → is_Some (column_of name cols).
Proof.
  induction cols as [|[n c] cols IH]; simpl.
  { by intros ?%elem_of_nil. }
  rewrite elem_of_cons. intros [->|Hin].
  - rewrite decide_True by done. eauto.
  - destruct (decide (n = name)); eauto.
Qed.

(** ** Index changes on the general binding layer *)

(** Running the body of [update] is running its two statements in turn. *)
Lemma DataMask_bindings_update_unfold b indices w :
  DataMask_bindings_update b indices w =
    (subsets_update indices (mask_resolved b) ;; set_indices (callback b) indices) w.
Proof.
  unfold DataMask_bindings_update, DataMask_bindings_update_body. simpl.
  unfold_M. destruct (subsets_update indices (mask_resolved b) w) as [[] w1| |];
    [|done..].
  by destruct (set_indices (callback b) indices w1) as [[] w2| |].
Qed.

Lemma subsets_update_eq indices scope w :
  subsets_update indices scope w =
    Returns tt
      {| envs := alter (λ e, {| enclos := enclos e;
                   frame := filter (λ kv, resolved (subsets w) !! kv.1 = None)
                              (frame e) |}) scope (envs w);
         callbacks := callbacks w;
         slicing := slicing w;
         subsets := {| columns := columns (subsets w); resolved := ∅ |};
         warnings := warnings w |}.
Proof. reflexivity. Qed.

Lemma set_indices_eq this a w g :
  callbacks w !! this = Some (Some g) →
  set_indices this a w =
    Returns tt (set_callbacks <[this := Some
      {| indices := Some a; mask_env := mask_env g; proxy := proxy g |}]> w).
Proof.
  intros H. unfold set_indices, deref_callback. unfold_M. by rewrite H.
Qed.

Lemma frame_of_alter f rho rho' w :
  frame_of rho' (set_envs (alter f rho) w) =
    if decide (rho = rho') then from_option (λ e, frame (f e)) ∅ (envs w !! rho')
    else frame_of rho' w.
Proof.
  unfold frame_of. simpl. rewrite lookup_alter.
  destruct (decide (rho = rho')) as [->|]; [|done].
  by destruct (envs w !! rho').
Qed.

(** Resolution with an index installed, a live resolver and a valid index
    object goes to the subset cache. *)
Lemma GroupedHybridEval_get_subset_eq this name w g a i :
  callbacks w !! this = Some (Some g) →
  indices g = Some a →
  slicing w !! a = Some i →
  GroupedHybridEval_get_subset this name w = subsets_get name i (mask_env g) w.
Proof.
  intros Hg Ha Hi.
  unfold GroupedHybridEval_get_subset, get_indices, deref_callback, deref_index.
  unfold_M. rewrite Hg, Ha, Hi. by rewrite Hg.
Qed.





(** ** Resolution through the proxy chain *)

Lemma hybrid_get_callback_eq name p w g a i :
  callbacks w !! weak_real p = Some (Some g) →
  indices g = Some a →
  slicing w !! a = Some i →
  hybrid_get_callback name p w = subsets_get name i (mask_env g) w.
Proof.
  intros Hg Ha Hi. unfold hybrid_get_callback. simpl.
  rewrite weak_get_subset_cases, Hg.
  by apply GroupedHybridEval_get_subset_eq with a.
Qed.

(** A lookup that starts at a frame holding an active binding for the name
    runs the callback of that binding. *)
Lemma findVar_active name rho w e payload :
  envs w !! rho = Some e →
  frame e !! name = Some (Active payload) →
  findVar name rho w = hybrid_get_callback name payload w.
Proof.
  intros He Hb. unfold findVar.
  destruct (base.size (envs w)) as [|n] eqn:Hsz.
  { apply map_size_empty_iff in Hsz. rewrite Hsz in He.
    by rewrite lookup_empty in He. }
  simpl. by rewrite He, Hb.
Qed.

(** A lookup that starts at a frame holding an ordinary binding reads it. *)
Lemma findVar_plain name rho w e v :
  envs w !! rho = Some e →
  frame e !! name = Some (Plain v) →
  findVar name rho w = Returns v w.
Proof.
  intros He Hb. unfold findVar.
  destruct (base.size (envs w)) as [|n] eqn:Hsz.
  { apply map_size_empty_iff in Hsz. rewrite Hsz in He.
    by rewrite lookup_empty in He. }
  simpl. by rewrite He, Hb.
Qed.

Lemma run_stable p w w' : ends_in (run p w) w' → stable w w'.
Proof.
  intros H. pose proof (preserves_run p w) as Hp.
  destruct (run p w); simpl in H; by subst.
Qed.

(** C4.  Take a live resolver of a general binding layer whose target scope
    is the resolved scope, with an index installed whose object holds [i].
    Every resolution, whether made on the resolver, through the weak proxy
    of the active bindings, through the resolver's own forwarding proxy, or
    by a variable lookup that meets such an active binding, is the call
    [subsets.get(name, i, resolved)].  The
    index is read at resolution time: after [set_indices] to another index
    object, the same binding, untouched, resolves against that object's
    value.  The engine cannot change the installed index, so resolutions
    nested anywhere in one engine run are made against the same index. *)
Theorem resolution_reads_current_index
    (b : DataMask_bindings) (w : World) (g : GroupedHybridEval)
    (a : addr) (i : SlicingIndex) (name : string)
    (Halive : callbacks w !! callback b = Some (Some g))
    (Hscope : mask_env g = EnvSxp (mask_resolved b))
    (Hinstalled : indices g = Some a)
    (Hindex : slicing w !! a = Some i) :
  let payload := {| weak_real := callback b |} in
  get_subset (Resolver (callback b)) name w
    = subsets_get name i (EnvSxp (mask_resolved b)) w
  ∧ get_subset (WeakProxy payload) name w
    = subsets_get name i (EnvSxp (mask_resolved b)) w
  ∧ get_subset (StrongProxy {| proxy_real := callback b |}) name w
    = subsets_get name i (EnvSxp (mask_resolved b)) w
  ∧ (∀ rho e, envs w !! rho = Some e → frame e !! name = Some (Active payload) →
       findVar name rho w = subsets_get name i (EnvSxp (mask_resolved b)) w)
  ∧ (∀ a' i', slicing w !! a' = Some i' →
       ∃ w1, set_indices (callback b) a' w = Returns tt w1
             ∧ envs w1 = envs w
             ∧ hybrid_get_callback name payload w1
                 = subsets_get name i' (EnvSxp (mask_resolved b)) w1)
  ∧ (∀ p w', ends_in (run p w) w' →
       installed_index (callback b) w' = Some a
       ∧ slicing w' !! a = Some i
       ∧ hybrid_get_callback name payload w'
           = subsets_get name i (EnvSxp (mask_resolved b)) w').
Proof.
  intros payload.
  assert (hybrid_get_callback name payload w
    = subsets_get name i (EnvSxp (mask_resolved b)) w) as Hweak.
  { rewrite <- Hscope. by apply hybrid_get_callback_eq with a. }
  assert (GroupedHybridEval_get_subset (callback b) name w
    = subsets_get name i (EnvSxp (mask_resolved b)) w) as Hstrong.
  { rewrite <- Hscope. by apply GroupedHybridEval_get_subset_eq with a. }
  split; [exact Hstrong|]. split; [exact Hweak|]. split; [exact Hstrong|]. split.
  { intros rho e He Hb. rewrite <- Hweak. by apply findVar_active with e. }
  split.
  - intros a' i' Hi'. eexists. split; [by apply (set_indices_eq _ _ _ g)|].
    split; [done|]. rewrite <- Hscope.
    apply (hybrid_get_callback_eq name payload _
             {| indices := Some a'; mask_env := mask_env g; proxy := proxy g |} a');
      simpl; [apply lookup_insert_eq|done|done].
  - intros p w' Hend. apply run_stable in Hend as [Hcb Hsl _ _].
    split; [unfold installed_index; by rewrite Hcb, Halive|].
    split; [by rewrite Hsl|]. rewrite <- Hscope.
    apply hybrid_get_callback_eq with a; simpl; by rewrite ?Hcb, ?Hsl.
Qed.

(** ** Resolution before the first [update] *)

(** C9.  The constructor of the general binding layer leaves the resolver
    with a null index pointer.  In that world, and in every world an engine
    run can reach from it, a resolution of any name, on the resolver or
    through the weak proxy, dereferences the null pointer.  [update] with
    the address of a valid index object installs that address, after which
    every resolution is a call of [subsets.get] with the value of that
    object. *)
Theorem resolution_requires_update (parent : env_id) (w : World) :
  ∃ (b : DataMask_bindings) (w' : World),
    DataMask_bindings_new parent w = Returns b w'
    ∧ installed_index (callback b) w' = None
    ∧ (∀ name p v, ends_in (run p w') v →
         installed_index (callback b) v = None
         ∧ get_subset (Resolver (callback b)) name v = Undefined NullDereference
         ∧ get_subset (WeakProxy {| weak_real := callback b |}) name v
             = Undefined NullDereference)
    ∧ (∀ a i, slicing w' !! a = Some i →
         ∃ w'', update b a w' = Returns tt w''
                ∧ installed_index (callback b) w'' = Some a
                ∧ ∀ name, get_subset (Resolver (callback b)) name w''
                    = subsets_get name i (EnvSxp (mask_resolved b)) w'').
Proof.
  eexists _, _. split; [apply DataMask_bindings_new_eq|].
  set (cb := fresh (dom (callbacks w))).
  set (res := fresh (_ ∪ dom (envs w))).
  set (g0 := {| indices := None; mask_env := EnvSxp res;
                proxy := {| proxy_real := cb |} |}).
  simpl. split.
  { unfold installed_index. simpl. by rewrite lookup_insert_eq. }
  split.
  - intros name p v Hend. apply run_stable in Hend as [Hcb _ _ _].
    simpl in Hcb.
    assert (callbacks v !! cb = Some (Some g0)) as Hg
      by (rewrite Hcb; apply lookup_insert_eq).
    assert (GroupedHybridEval_get_subset cb name v = Undefined NullDereference)
      as Hnull.
    { unfold GroupedHybridEval_get_subset, get_indices, deref_callback.
      unfold_M. by rewrite Hg. }
    split; [unfold installed_index; by rewrite Hg|].
    split; [exact Hnull|].
    rewrite weak_get_subset_cases. simpl. by rewrite Hg.
  - intros a i Hi. eexists. split.
    { rewrite DataMask_bindings_update_unfold. unfold_M. rewrite subsets_update_eq.
      apply (set_indices_eq _ _ _ g0). simpl. apply lookup_insert_eq. }
    split.
    { unfold installed_index. simpl. by rewrite lookup_insert_eq. }
    intros name.
    apply (GroupedHybridEval_get_subset_eq cb name _
             {| indices := Some a; mask_env := EnvSxp res;
                proxy := {| proxy_real := cb |} |} a);
      simpl; [apply lookup_insert_eq|done|done].
Qed.

(** ** Evaluation *)

Lemma wrap_int_id z : (- 2 ^ 31 ≤ z < 2 ^ 31)%Z → wrap_int z = z.
Proof. intros H. unfold wrap_int. rewrite Z.mod_small; lia. Qed.

Lemma size_ok i : index_ok i → size i = Z.of_nat (length (rows i)).
Proof.
  intros [_ H]. unfold size, INT_MAX in *. apply wrap_int_id. lia.
Qed.

Lemma group_succ_ok i : index_ok i → wrap_int (group i + 1) = (group_index i + 1)%Z.
Proof.
  intros [H _]. unfold group, INT_MAX in *. apply wrap_int_id. lia.
Qed.

Section Evaluation.
Context {B : Type} `{!Bindings B}.
Variable engine : SEXP → env_id → Prog.

(** [eval] is [update], the two assignments, and the engine's run, whose
    outcome is the outcome of [eval]. *)
Lemma eval_eq (mask : DataMask B) expr a i w w1 :
  update (bindings mask) a w = Returns tt w1 →
  slicing w1 !! a = Some i →
  eval engine mask expr a w =
    Rcpp_eval engine expr (overscope mask) (with_metadata i (overscope mask) w1).
Proof.
  intros Hupd Hi. unfold eval, deref_index, defineVar. unfold_M.
  rewrite Hupd, Hi. simpl. rewrite Hi. f_equal.
  unfold with_metadata, set_envs. simpl. f_equal.
  by rewrite alter_alter_eq.
Qed.
End Evaluation.

Lemma with_metadata_frame i scope w e :
  envs w !! scope = Some e →
  envs (with_metadata i scope w) !! scope =
    Some {| enclos := enclos e;
            frame := <["..group_number" := Plain (wrap (wrap_int (group i + 1)))]>
                       (<["..group_size" := Plain (wrap (size i))]> (frame e)) |}.
Proof. intros He. simpl. rewrite lookup_alter, decide_True by done. by rewrite He. Qed.

Lemma with_metadata_other i scope w rho :
  rho ≠ scope → envs (with_metadata i scope w) !! rho = envs w !! rho.
Proof. intros Hne. simpl. by rewrite lookup_alter_ne. Qed.

(** What the engine finds under the two metadata names. *)
Lemma with_metadata_reads i scope w e :
  envs w !! scope = Some e →
  let w2 := with_metadata i scope w in
  findVar "..group_size" scope w2 = Returns (wrap (size i)) w2
  ∧ findVar "..group_number" scope w2 = Returns (wrap (wrap_int (group i + 1))) w2.
Proof.
  intros He w2. pose proof (with_metadata_frame i scope w e He) as Hf.
  split; eapply findVar_plain; try exact Hf; simpl.
  - by rewrite lookup_insert_ne, lookup_insert_eq.
  - by rewrite lookup_insert_eq.
Qed.

Lemma general_update_eq (b : DataMask_bindings) a w g :
  callbacks w !! callback b = Some (Some g) →
  update b a w =
    Returns tt
      {| envs := alter (λ e, {| enclos := enclos e;
                   frame := filter (λ kv, resolved (subsets w) !! kv.1 = None)
                              (frame e) |}) (mask_resolved b) (envs w);
         callbacks := <[callback b := Some {| indices := Some a;
                          mask_env := mask_env g; proxy := proxy g |}]> (callbacks w);
         slicing := slicing w;
         subsets := {| columns := columns (subsets w); resolved := ∅ |};
         warnings := warnings w |}.
Proof.
  intros Hg. simpl. rewrite DataMask_bindings_update_unfold. unfold_M.
  rewrite subsets_update_eq. by rewrite (set_indices_eq _ _ _ g).
Qed.

(** C3.  On a mask over either binding layer, let [update] on the layer
    return in a world [w1] where the index object passed to [eval] holds a
    valid index [i] and the evaluation scope is in place.  Then [eval] is:
    that [update]; then the evaluation scope gains its two metadata bindings
    and nothing else in the world changes; then the engine runs on the
    expression and the evaluation scope, and its outcome is the outcome of
    [eval].  The engine reads the row count of the index under the group
    size name and the ordinal plus one under the group number name; for the
    rows [2, 5, 7] these are 3 and the ordinal plus one. *)
Theorem eval_updates_writes_metadata_delegates
    {B : Type} `{!Bindings B}
    (engine : SEXP → env_id → Prog) (mask : DataMask B)
    (expr : SEXP) (a : addr) (i : SlicingIndex) (w w1 : World) (e : Environment)
    (Hupdate : update (bindings mask) a w = Returns tt w1)
    (Hindex : slicing w1 !! a = Some i)
    (Hvalid : index_ok i)
    (Hscope : envs w1 !! overscope mask = Some e) :
  ∃ w2 : World,
    w2 = with_metadata i (overscope mask) w1
    ∧ eval engine mask expr a w = Rcpp_eval engine expr (overscope mask) w2
    ∧ envs w2 !! overscope mask =
        Some {| enclos := enclos e;
                frame := <["..group_number" := Plain (wrap (group_index i + 1))]>
                           (<["..group_size" := Plain (wrap (Z.of_nat (length (rows i))))]>
                              (frame e)) |}
    ∧ (∀ rho, rho ≠ overscope mask → envs w2 !! rho = envs w1 !! rho)
    ∧ callbacks w2 = callbacks w1
    ∧ subsets w2 = subsets w1
    ∧ slicing w2 = slicing w1
    ∧ warnings w2 = warnings w1
    ∧ findVar "..group_size" (overscope mask) w2
        = Returns (wrap (Z.of_nat (length (rows i)))) w2
    ∧ findVar "..group_number" (overscope mask) w2
        = Returns (wrap (group_index i + 1)) w2
    ∧ (rows i = [2; 5; 7]%Z →
         findVar "..group_size" (overscope mask) w2 = Returns (wrap 3) w2).
Proof.
  eexists. split; [reflexivity|].
  pose proof (with_metadata_reads i _ _ _ Hscope) as [Hsz Hnum].
  rewrite (size_ok i Hvalid) in Hsz. rewrite (group_succ_ok i Hvalid) in Hnum.
  split; [by apply eval_eq|].
  split.
  { rewrite (with_metadata_frame _ _ _ _ Hscope).
    by rewrite (size_ok i Hvalid), (group_succ_ok i Hvalid). }
  split; [intros rho Hne; by apply with_metadata_other|].
  do 4 (split; [done|]).
  split; [exact Hsz|]. split; [exact Hnum|].
  intros Hrows. by rewrite Hrows in Hsz.
Qed.

(** C10.  On a mask over the single-group binding layer, [update] leaves the
    world as it is, and [eval] still makes the two metadata assignments from
    the index object it was passed: whatever the dataset held by the world,
    the engine reads that index's row count and that index's ordinal plus
    one. *)
Theorem natural_eval_metadata_from_index
    (engine : SEXP → env_id → Prog) (mask : DataMask DataMask_bindings_Natural)
    (expr : SEXP) (a : addr) (i : SlicingIndex) (w : World) (e : Environment)
    (Hindex : slicing w !! a = Some i)
    (Hvalid : index_ok i)
    (Hscope : envs w !! overscope mask = Some e) :
  let w2 := with_metadata i (overscope mask) w in
  update (bindings mask) a w = Returns tt w
  ∧ eval engine mask expr a w = Rcpp_eval engine expr (overscope mask) w2
  ∧ subsets w2 = subsets w
  ∧ findVar "..group_size" (overscope mask) w2
      = Returns (wrap (Z.of_nat (length (rows i)))) w2
  ∧ findVar "..group_number" (overscope mask) w2
      = Returns (wrap (group_index i + 1)) w2.
Proof.
  intros w2. pose proof (with_metadata_reads i _ _ _ Hscope) as [Hsz Hnum].
  rewrite (size_ok i Hvalid) in Hsz. rewrite (group_succ_ok i Hvalid) in Hnum.
  split; [done|]. split; [by apply eval_eq|]. by split.
Qed.

(** ** Scope retention across evaluations *)

Lemma frame_of_with_metadata_other i scope w name rho :
  (rho = scope → name ≠ "..group_size" ∧ name ≠ "..group_number") →
  frame_of rho (with_metadata i scope w) !! name = frame_of rho w !! name.
Proof.
  intros H. unfold with_metadata. rewrite frame_of_alter.
  destruct (decide (scope = rho)) as [<-|]; [|done].
  destruct H as [H1 H2]; [done|]. unfold frame_of.
  destruct (envs w !! scope); simpl; [|done].
  by rewrite !lookup_insert_ne.
Qed.

(** The resolver of a general mask outlives every evaluation. *)
Lemma eval_keeps_resolver engine (mask : DataMask DataMask_bindings)
    expr a i w w' g :
  callbacks w !! callback (bindings mask) = Some (Some g) →
  slicing w !! a = Some i →
  ends_in (eval engine mask expr a w) w' →
  callbacks w' !! callback (bindings mask) =
    Some (Some {| indices := Some a; mask_env := mask_env g; proxy := proxy g |})
  ∧ slicing w' = slicing w.
Proof.
  intros Hg Hi Hend.
  erewrite eval_eq in Hend; [|by apply (general_update_eq _ _ _ g)|done].
  apply run_stable in Hend as [Hcb Hsl _ _]. simpl in Hcb, Hsl.
  split; [|done]. rewrite Hcb. apply lookup_insert_eq.
Qed.

(** C7.  Let an evaluation on a mask over the general binding layer end, by
    a value or by an error, in a world [w'].  The next evaluation hands the
    engine a world in which the evaluation scope binds every name other
    than the two metadata names exactly as in [w'], in which the resolved
    scope has lost the bindings of the variables that were cached in [w']
    and no others, and in which every other environment is as in [w']. *)
Theorem eval_retains_scope_bindings
    (engine : SEXP → env_id → Prog) (mask : DataMask DataMask_bindings)
    (e1 e2 : SEXP) (a1 a2 : addr) (i1 i2 : SlicingIndex) (w w' : World)
    (g : GroupedHybridEval)
    (Halive : callbacks w !! callback (bindings mask) = Some (Some g))
    (Hdistinct : overscope mask ≠ mask_resolved (bindings mask))
    (Hindex1 : slicing w !! a1 = Some i1)
    (Hindex2 : slicing w !! a2 = Some i2)
    (Hfirst : ends_in (eval engine mask e1 a1 w) w') :
  ∃ w1 w2 : World,
    update (bindings mask) a2 w' = Returns tt w1
    ∧ w2 = with_metadata i2 (overscope mask) w1
    ∧ eval engine mask e2 a2 w' = Rcpp_eval engine e2 (overscope mask) w2
    ∧ (∀ name, name ≠ "..group_size" → name ≠ "..group_number" →
         frame_of (overscope mask) w2 !! name = frame_of (overscope mask) w' !! name)
    ∧ (∀ name, frame_of (mask_resolved (bindings mask)) w2 !! name =
         match resolved (subsets w') !! name with
         | Some _ => None
         | None => frame_of (mask_resolved (bindings mask)) w' !! name
         end)
    ∧ (∀ rho, rho ≠ overscope mask → rho ≠ mask_resolved (bindings mask) →
         envs w2 !! rho = envs w' !! rho).
Proof.
  destruct (eval_keeps_resolver _ _ _ _ _ _ _ _ Halive Hindex1 Hfirst)
    as [Halive' Hsl].
  rewrite <- Hsl in Hindex2.
  eexists _, _. split; [by eapply general_update_eq|].
  split; [reflexivity|].
  split; [apply eval_eq; [by eapply general_update_eq|done]|].
  split; [|split].
  - intros name H1 H2. rewrite frame_of_with_metadata_other by done.
    unfold frame_of. simpl. by rewrite lookup_alter_ne.
  - intros name.
    rewrite frame_of_with_metadata_other by (intros ?; by subst).
    unfold frame_of. simpl. rewrite lookup_alter, decide_True by done.
    destruct (envs w' !! mask_resolved (bindings mask)) as [e|]; simpl.
    + rewrite map_lookup_filter. simpl.
      destruct (frame e !! name) as [bnd|]; simpl.
      * destruct (resolved (subsets w') !! name) eqn:Hres.
        -- rewrite option_guard_False; [done|]. by intros ?.
        -- by rewrite option_guard_True.
      * by destruct (resolved (subsets w') !! name).
    + rewrite lookup_empty. by destruct (resolved (subsets w') !! name).
  - intros rho H1 H2. rewrite with_metadata_other by done.
    simpl. by rewrite lookup_alter_ne.
Qed.

(** ** Cache coherence *)

Lemma keeps_bind P {A B} (m : M A) (f : A → M B) :
  keeps P m → (∀ a, keeps P (f a)) → keeps P (m ≫= f).
Proof.
  intros Hm Hf w Hw. unfold_M. specialize (Hm w Hw).
  destruct (m w) as [x w'| |]; [|done..]. by apply Hf.
Qed.

Lemma session_frame a i w w' :
  slicing w' = slicing w → callbacks w' = callbacks w → subsets w' = subsets w →
  session a i w → session a i w'.
Proof.
  intros Hs Hc Hsub [H1 H2 H3]. split.
  - by rewrite Hs.
  - by rewrite Hc.
  - unfold coherent. by rewrite Hsub.
Qed.

Ltac same_session :=
  match goal with
  | Hw : session ?a ?i ?w |- session ?a ?i _ =>
      apply (session_frame a i w); [reflexivity..|exact Hw]
  end.

Lemma keeps_defineVar a i name v rho : keeps (session a i) (defineVar name v rho).
Proof. intros w Hw. simpl. same_session. Qed.

Lemma keeps_subsets_get a i name scope :
  keeps (session a i) (subsets_get name i scope).
Proof.
  intros w Hw. unfold subsets_get. unfold_M.
  destruct (column_of name (columns (subsets w))) as [col|] eqn:Hcol; [|done].
  destruct (resolved (subsets w) !! name) eqn:Hres; [done|].
  assert (session a i (set_subsets (λ s, {| columns := columns s;
    resolved := <[name := IntegerSxp (gather col (rows i))]> (resolved s) |}) w))
    as Hw'.
  { destruct Hw as [H1 H2 H3]. split; [done..|].
    intros n v. simpl. destruct (decide (name = n)) as [<-|Hne].
    - rewrite lookup_insert_eq. intros [= <-]. eauto.
    - rewrite lookup_insert_ne by done. apply H3. }
  destruct scope; simpl; try exact Hw'.
  same_session.
Qed.

Lemma keeps_GroupedHybridEval_get_subset a i this name :
  keeps (session a i) (GroupedHybridEval_get_subset this name).
Proof.
  intros w Hw.
  destruct (callbacks w !! this) as [[g|]|] eqn:Hg.
  - erewrite GroupedHybridEval_get_subset_eq;
      [|exact Hg|by eapply session_resolvers|by eapply session_index].
    by apply keeps_subsets_get.
  - unfold GroupedHybridEval_get_subset, get_indices, deref_callback.
    unfold_M. by rewrite Hg.
  - unfold GroupedHybridEval_get_subset, get_indices, deref_callback.
    unfold_M. by rewrite Hg.
Qed.

Lemma keeps_findVar_from a i fuel name rho :
  keeps (session a i) (findVar_from fuel name rho).
Proof.
  revert rho. induction fuel as [|fuel IH]; intros rho w Hw; simpl; [done|].
  destruct (envs w !! rho) as [e|]; [|done].
  destruct (frame e !! name) as [[v|payload]|]; [done| |by apply IH].
  unfold hybrid_get_callback. simpl. rewrite weak_get_subset_cases.
  destruct (callbacks w !! weak_real payload) as [[g|]|];
    [by apply keeps_GroupedHybridEval_get_subset|..];
    same_session.
Qed.

(** Whatever the engine does, the cache stays coherent with the index of the
    group under evaluation. *)
Lemma keeps_run a i p : keeps (session a i) (run p).
Proof.
  induction p as [v|c|name rho k IH|name v rho k IH|name rho k IH|parent k IH|rho parent k IH|msg k IH];
    simpl.
  - by intros w Hw.
  - by intros w Hw.
  - apply keeps_bind; [|done]. intros w Hw. by apply keeps_findVar_from.
  - apply keeps_bind; [apply keeps_defineVar|done].
  - apply keeps_bind; [|done]. intros w Hw. simpl. same_session.
  - apply keeps_bind; [|done]. intros w Hw. simpl. same_session.
  - apply keeps_bind; [|done]. intros w Hw. simpl. same_session.
  - apply keeps_bind; [|done]. intros w Hw. simpl. same_session.
Qed.

(** ** Engine failures *)

(** C8.  On a mask over the general binding layer, let [update] have
    returned and let the engine, run on the expression in the world [eval]
    hands it, raise an error [c] in a world [w3].  Then [eval] raises that
    same error in that same world.  In [w3] the resolver is alive with the
    index of this evaluation installed, and, when the mask's resolver is the
    only live one, every cached subset is the one of that index.  From [w3],
    [update] with any index returns, empties the cache and installs that
    index. *)
Theorem engine_failure_propagates
    (engine : SEXP → env_id → Prog) (mask : DataMask DataMask_bindings)
    (expr : SEXP) (a : addr) (i : SlicingIndex) (w w1 w3 : World)
    (g : GroupedHybridEval) (c : condition)
    (Halive : callbacks w !! callback (bindings mask) = Some (Some g))
    (Hindex : slicing w !! a = Some i)
    (Hupdate : update (bindings mask) a w = Returns tt w1)
    (Hfail : Rcpp_eval engine expr (overscope mask)
               (with_metadata i (overscope mask) w1) = Throws c w3) :
  eval engine mask expr a w = Throws c w3
  ∧ installed_index (callback (bindings mask)) w3 = Some a
  ∧ slicing w3 !! a = Some i
  ∧ ((∀ cb g', callbacks w !! cb = Some (Some g') → cb = callback (bindings mask)) →
       coherent i w3)
  ∧ (∀ a', ∃ w4, update (bindings mask) a' w3 = Returns tt w4
                 ∧ resolved (subsets w4) = ∅
                 ∧ installed_index (callback (bindings mask)) w4 = Some a').
Proof.
  pose proof Hupdate as Hw1. rewrite (general_update_eq _ _ _ g Halive) in Hw1.
  injection Hw1 as Hw1.
  assert (eval engine mask expr a w = Throws c w3) as Heval.
  { rewrite <- Hfail. apply eval_eq; [done|]. by rewrite <- Hw1. }
  assert (ends_in (eval engine mask expr a w) w3) as Hend by by rewrite Heval.
  destruct (eval_keeps_resolver _ _ _ _ _ _ _ _ Halive Hindex Hend)
    as [Halive3 Hsl3].
  split; [exact Heval|].
  split; [unfold installed_index; by rewrite Halive3|].
  split; [by rewrite Hsl3|]. split.
  - intros Hsole.
    assert (session a i (with_metadata i (overscope mask) w1)) as Hsess.
    { rewrite <- Hw1. split; simpl.
      - done.
      - intros cb g'. destruct (decide (cb = callback (bindings mask))) as [->|Hne].
        + rewrite lookup_insert_eq. by intros [= <-].
        + rewrite lookup_insert_ne by done. intros Hcb.
          by apply Hsole in Hcb.
      - intros name v. simpl. by rewrite lookup_empty. }
    pose proof (keeps_run a i (engine expr (overscope mask)) _ Hsess) as Hk.
    unfold Rcpp_eval in Hfail. rewrite Hfail in Hk. apply Hk.
  - intros a'. eexists. split; [by eapply general_update_eq|].
    split; [done|]. unfold installed_index. simpl. by rewrite lookup_insert_eq.
Qed.

(** ** The single-group binding layer *)

Lemma install_columns_eq cols pre rho w :
  columns (subsets w) = pre ++ cols →
  install_columns (cols.*1) (length pre) rho w =
    Returns tt (set_envs (alter (λ e,
      {| enclos := enclos e; frame := installed cols (frame e) |}) rho) w).
Proof.
  revert pre w. induction cols as [|[n c] cols IH]; intros pre w Hcols.
  { simpl. unfold_M. f_equal. destruct w. unfold set_envs. simpl. f_equal.
    symmetry. apply map_eq. intros k. rewrite lookup_alter.
    case_decide; [subst|done]. by destruct (_ !! k) as [[]|]. }
  simpl. unfold_M. unfold get_subset_data.
  rewrite Hcols, lookup_app_r, Nat.sub_diag by done. simpl.
  specialize (IH (pre ++ [(n, c)])). rewrite length_app, Nat.add_1_r in IH.
  rewrite IH by (simpl; by rewrite Hcols, <- app_assoc).
  f_equal. unfold set_envs. simpl. f_equal. by rewrite alter_alter_eq.
Qed.

(** A later column of the same name overwrites an earlier one. *)
Lemma lookup_installed cols fr name :
  installed cols fr !! name =
    match column_of name (reverse cols) with
    | Some c => Some (Plain (IntegerSxp c))
    | None => fr !! name
    end.
Proof.
  revert fr. induction cols as [|[n c] cols IH]; intros fr; [done|].
  unfold installed in *. simpl. rewrite IH, reverse_cons, column_of_app.
  destruct (column_of name (reverse cols)); [done|]. simpl.
  destruct (decide (n = name)) as [->|Hne].
  - by rewrite lookup_insert_eq.
  - by rewrite lookup_insert_ne.
Qed.

Lemma column_of_reverse name cols :
  NoDup (cols.*1) → column_of name (reverse cols) = column_of name cols.
Proof.
  induction cols as [|[n c] cols IH]; [done|].
  rewrite fmap_cons, NoDup_cons. intros [Hnot Hnd].
  rewrite reverse_cons, column_of_app, IH by done. simpl.
  destruct (decide (n = name)) as [->|Hne].
  - by rewrite column_of_None.
  - by destruct (column_of name cols).
Qed.

(** C6.  On the single-group binding layer [update] returns at once in the
    world it was called in, for every index, and [bottom] and [top] are the
    same scope.  From every world the constructor returns: its scope is one
    new environment under the parent scope, whose frame binds every declared
    variable name by an ordinary binding to the data of its column (of the
    last column so named, should a name repeat) and binds nothing else;
    the rest of the world is as before. *)
Theorem natural_bindings_flat (parent : env_id) (w : World) :
  (∀ (b : DataMask_bindings_Natural) (a : addr) (v : World),
     update b a v = Returns tt v)
  ∧ (∀ b : DataMask_bindings_Natural, bottom b = top b)
  ∧ ∃ (b : DataMask_bindings_Natural) (w' : World) (fr : gmap string Binding),
      bindings_new parent w = Returns b w'
      ∧ bottom b = EnvSxp (mask_bindings b)
      ∧ top b = EnvSxp (mask_bindings b)
      ∧ envs w !! mask_bindings b = None
      ∧ envs w' !! mask_bindings b = Some {| enclos := parent; frame := fr |}
      ∧ (∀ name, fr !! name =
           (λ c, Plain (IntegerSxp c)) <$>
             column_of name (reverse (columns (subsets w))))
      ∧ (∀ name, name ∈ get_variable_names (subsets w) →
           ∃ c, fr !! name = Some (Plain (IntegerSxp c)))
      ∧ (NoDup (get_variable_names (subsets w)) →
           ∀ n name c, columns (subsets w) !! n = Some (name, c) →
             get_subset_data (subsets w) n = IntegerSxp c
             ∧ fr !! name = Some (Plain (get_subset_data (subsets w) n)))
      ∧ (∀ rho, rho ≠ mask_bindings b → envs w' !! rho = envs w !! rho)
      ∧ callbacks w' = callbacks w
      ∧ subsets w' = subsets w
      ∧ slicing w' = slicing w
      ∧ warnings w' = warnings w.
Proof.
  split; [done|]. split; [done|].
  set (rho := fresh (dom (envs w))).
  assert (envs w !! rho = None) as Hfresh by apply not_elem_of_dom, is_fresh.
  exists {| mask_bindings := rho |}. eexists. eexists. split.
  { simpl. unfold Natural_new, child_env, alloc_env. unfold_M. fold rho.
    unfold get_variable_names. simpl.
    by rewrite (install_columns_eq (columns (subsets w)) [] rho). }
  simpl. do 3 (split; [done|]). split.
  { rewrite lookup_alter, decide_True by done. by rewrite lookup_insert_eq. }
  assert (∀ name, installed (columns (subsets w)) ∅ !! name =
    (λ c, Plain (IntegerSxp c)) <$> column_of name (reverse (columns (subsets w))))
    as Hfr.
  { intros name. rewrite lookup_installed.
    by destruct (column_of name (reverse (columns (subsets w)))). }
  split; [exact Hfr|]. split.
  { intros name Hin. rewrite Hfr.
    destruct (column_of_Some name (reverse (columns (subsets w)))) as [c Hc].
    - unfold get_variable_names in Hin. rewrite fmap_reverse.
      by apply elem_of_reverse.
    - rewrite Hc. eauto. }
  split.
  { intros Hnd n name c Hn. unfold get_subset_data. rewrite Hn.
    split; [done|]. unfold get_variable_names in Hnd.
    rewrite Hfr, column_of_reverse by done.
    apply list_elem_of_split_length in Hn as (pre & post & Hcols & _).
    rewrite Hcols in Hnd |- *.
    rewrite column_of_app, column_of_None.
    - simpl. by rewrite decide_True.
    - rewrite fmap_app, fmap_cons in Hnd.
      apply NoDup_app in Hnd as (_ & Hnd & _). intros Hin.
      apply (Hnd name Hin). simpl. apply elem_of_cons. by left. }
  split.
  { intros rho' Hne. by rewrite lookup_alter_ne, lookup_insert_ne. }
  done.
Qed.

(** * The theorems at work on the example session *)

Lemma example_built_eq :
  DataMask_new (B := DataMask_bindings) 1%positive example_world
    = Returns example_mask example_built.
Proof. vm_compute. reflexivity. Qed.

Lemma example_natural_built_eq :
  DataMask_new (B := DataMask_bindings_Natural) 1%positive example_world
    = Returns example_natural_mask example_natural_built.
Proof. vm_compute. reflexivity. Qed.

(** A whole evaluation: the column [x] of the group with rows 2, 5, 7. *)
Lemma example_eval_column :
  ∃ w, eval example_engine example_mask (SymSxp "x") 1%positive example_built
         = Returns (IntegerSxp [30; 60; 80]%Z) w.
Proof. eexists. vm_compute. reflexivity. Qed.

(** Witness of C1: the example mask is destroyed, then [x] is requested. *)
Lemma weak_proxy_stale_access_witness :
  DataMask_bindings_delete (bindings example_mask) example_built
    = Returns tt (world_of (DataMask_bindings_delete (bindings example_mask) example_built))
  ∧ hybrid_get_callback "x" {| weak_real := 1 |}
      (world_of (DataMask_bindings_delete (bindings example_mask) example_built))
    = Returns R_NilValue
        (set_warnings (λ l, l ++ [stale_warning])
           (world_of (DataMask_bindings_delete (bindings example_mask) example_built))).
Proof.
  assert (DataMask_bindings_delete (bindings example_mask) example_built
    = Returns tt (world_of (DataMask_bindings_delete (bindings example_mask) example_built)))
    as H by (vm_compute; reflexivity).
  split; [exact H|].
  exact (proj1 (proj2 (weak_proxy_stale_access_is_recoverable
    (bindings example_mask) example_built _ "x" H))).
Defined.



(** Witness of C3: the group of rows 2, 5, 7 and ordinal 4 reads 3 and 5. *)
Lemma eval_metadata_witness :
  update (bindings example_mask) 1%positive example_built = Returns tt example_updated
  ∧ index_ok example_index
  ∧ ∃ w2, eval example_engine example_mask (SymSxp "..group_size") 1%positive
            example_built
            = Rcpp_eval example_engine (SymSxp "..group_size") 4%positive w2
          ∧ findVar "..group_size" 4%positive w2 = Returns (wrap 3) w2
          ∧ findVar "..group_number" 4%positive w2 = Returns (wrap 5) w2.
Proof.
  assert (update (bindings example_mask) 1%positive example_built
    = Returns tt example_updated) as Hupd by (vm_compute; reflexivity).
  assert (index_ok example_index) as Hok by (vm_compute; intuition discriminate).
  split; [exact Hupd|]. split; [exact Hok|].
  destruct (eval_updates_writes_metadata_delegates example_engine example_mask
    (SymSxp "..group_size") 1%positive example_index example_built
    example_updated example_scope Hupd)
    as (w2 & _ & Heval & _ & _ & _ & _ & _ & _ & Hsz & Hnum & _).
  - vm_compute. reflexivity.
  - exact Hok.
  - vm_compute. reflexivity.
  - exists w2. split; [exact Heval|]. split; [exact Hsz|exact Hnum].
Defined.

(** Witness of C4: after [update], the active binding of [x] resolves with
    the rows of the installed index. *)
Lemma resolution_reads_current_index_witness :
  callbacks example_updated !! callback (bindings example_mask)
    = Some (Some {| indices := Some 1%positive; mask_env := EnvSxp 3;
                    proxy := {| proxy_real := 1 |} |})
  ∧ get_subset (WeakProxy {| weak_real := 1 |}) "x" example_updated
    = subsets_get "x" example_index (EnvSxp 3) example_updated.
Proof.
  assert (callbacks example_updated !! callback (bindings example_mask)
    = Some (Some {| indices := Some 1%positive; mask_env := EnvSxp 3;
                    proxy := {| proxy_real := 1 |} |})) as H
    by (vm_compute; reflexivity).
  split; [exact H|].
  refine (proj1 (proj2 (resolution_reads_current_index (bindings example_mask)
    example_updated _ 1%positive example_index "x" H _ _ _))).
  - reflexivity.
  - reflexivity.
  - vm_compute. reflexivity.
Defined.

(** Witness of C7: a first evaluation defines [seen] in the evaluation
    scope; the second evaluation starts with [seen] still bound. *)
Lemma eval_retains_scope_bindings_witness :
  ends_in (eval example_engine example_mask (OtherSxp 7) 1%positive example_built)
    (world_of (eval example_engine example_mask (OtherSxp 7) 1%positive example_built))
  ∧ ∃ w2, eval example_engine example_mask (SymSxp "seen") 2%positive
            (world_of (eval example_engine example_mask (OtherSxp 7) 1%positive
                         example_built))
            = Rcpp_eval example_engine (SymSxp "seen") 4%positive w2
          ∧ frame_of 4%positive w2 !! "seen" = Some (Plain (wrap 7)).
Proof.
  assert (ends_in
    (eval example_engine example_mask (OtherSxp 7) 1%positive example_built)
    (world_of (eval example_engine example_mask (OtherSxp 7) 1%positive example_built)))
    as Hfirst by (vm_compute; reflexivity).
  split; [exact Hfirst|].
  destruct (eval_retains_scope_bindings example_engine example_mask
    (OtherSxp 7) (SymSxp "seen") 1%positive 2%positive example_index
    {| group_index := 0; rows := [0; 1]%Z |} example_built
    (world_of (eval example_engine example_mask (OtherSxp 7) 1%positive example_built))
    example_resolver)
    as (w1 & w2 & _ & _ & Heval & Hkept & _).
  - vm_compute. reflexivity.
  - vm_compute. discriminate.
  - vm_compute. reflexivity.
  - vm_compute. reflexivity.
  - exact Hfirst.
  - exists w2. split; [exact Heval|].
    etrans; [apply (Hkept "seen"); discriminate|]. vm_compute. reflexivity.
Defined.

(** Witness of C8: the engine fails on an unbound symbol. *)
Lemma engine_failure_witness :
  Rcpp_eval example_engine (SymSxp "nope") 4%positive
    (with_metadata example_index 4%positive example_updated)
    = Throws (EvalError (SymSxp "nope"))
        (with_metadata example_index 4%positive example_updated)
  ∧ eval example_engine example_mask (SymSxp "nope") 1%positive example_built
    = Throws (EvalError (SymSxp "nope"))
        (with_metadata example_index 4%positive example_updated).
Proof.
  assert (Rcpp_eval example_engine (SymSxp "nope") (overscope example_mask)
    (with_metadata example_index (overscope example_mask) example_updated)
    = Throws (EvalError (SymSxp "nope"))
        (with_metadata example_index 4%positive example_updated)) as Hfail
    by (vm_compute; reflexivity).
  split; [exact Hfail|].
  refine (proj1 (engine_failure_propagates example_engine example_mask
    (SymSxp "nope") 1%positive example_index example_built example_updated _
    example_resolver _ _ _ _ Hfail)).
  - vm_compute. reflexivity.
  - vm_compute. reflexivity.
  - vm_compute. reflexivity.
Defined.

(** Witness of C10: on the single-group mask, whose dataset has eight rows,
    an index of three rows and ordinal 4 reads 3 and 5. *)
Lemma natural_eval_metadata_witness :
  index_ok example_index
  ∧ findVar "..group_size" 3%positive
      (with_metadata example_index 3%positive example_natural_built)
    = Returns (wrap 3) (with_metadata example_index 3%positive example_natural_built)
  ∧ findVar "..group_number" 3%positive
      (with_metadata example_index 3%positive example_natural_built)
    = Returns (wrap 5) (with_metadata example_index 3%positive example_natural_built).
Proof.
  assert (index_ok example_index) as Hok by (vm_compute; intuition discriminate).
  split; [exact Hok|].
  refine (proj2 (proj2 (proj2 (natural_eval_metadata_from_index example_engine
    example_natural_mask (SymSxp "x") 1%positive example_index
    example_natural_built {| enclos := 2; frame := {[ ".data" := Plain (DataPronoun 2) ]} |}
    _ Hok _)))).
  - vm_compute. reflexivity.
  - vm_compute. reflexivity.
Defined.

(** The construction theorems at the example world. *)
Lemma DataMask_bindings_construction_witness :
  ∃ b w', DataMask_bindings_new 1%positive example_world = Returns b w'
          ∧ bottom b = EnvSxp (mask_resolved b)
          ∧ top b = EnvSxp (mask_active b)
          ∧ resolved (subsets w') = ∅.
Proof.
  destruct (DataMask_bindings_construction 1%positive example_world)
    as (b & w' & Hnew & _ & _ & _ & _ & _ & _ & _ & Hres & _ & _ & Hbot & Htop).
  exists b, w'. by repeat split.
Defined.

Lemma natural_bindings_flat_witness :
  ∃ b w' fr, Natural_new 1%positive example_world = Returns b w'
             ∧ envs w' !! mask_bindings b = Some {| enclos := 1; frame := fr |}
             ∧ fr !! "y" = Some (Plain (IntegerSxp [1; 2; 3; 4; 5; 6; 7; 8]%Z)).
Proof.
  destruct (natural_bindings_flat 1%positive example_world)
    as (_ & _ & b & w' & fr & Hnew & _ & _ & _ & Henv & Hfr & _).
  exists b, w', fr. split; [exact Hnew|]. split; [exact Henv|].
  rewrite Hfr. vm_compute. reflexivity.
Defined.

Lemma resolution_requires_update_witness :
  ∃ b w', DataMask_bindings_new 1%positive example_world = Returns b w'
          ∧ get_subset (Resolver (callback b)) "x" w' = Undefined NullDereference
          ∧ get_subset (WeakProxy {| weak_real := callback b |}) "x" w'
              = Undefined NullDereference.
Proof.
  destruct (resolution_requires_update 1%positive example_world)
    as (b & w' & Hnew & _ & Hnull & _).
  exists b, w'. split; [exact Hnew|].
  apply (Hnull "x" (Ret R_NilValue) w'). reflexivity.
Defined.

(** * Further properties of the header *)

(** ** Environments that persist *)

Lemma links_same w w' : envs w' = envs w → links w w'.
Proof. intros Heq rho e He. rewrite Heq. eauto. Qed.

(** ** Walking the scope chain *)

Lemma scope_chain_size parent mask w :
  scope_chain parent mask w → 3 ≤ base.size (envs w).
Proof.
  intros [(eo & Ho & _) (er & Hr & _) (ea & Ha & _) Hnd].
  apply (env_count _ w Hnd). intros rho Hrho.
  repeat (apply elem_of_cons in Hrho as [->|Hrho]; [eauto|]).
  by apply elem_of_nil in Hrho.
Qed.

(** A lookup from the evaluation scope of a name that neither the
    evaluation scope nor the resolved scope binds goes on at the active
    scope, with fuel left for every environment of the heap but those
    two. *)
Lemma findVar_reaches_active parent mask w name :
  scope_chain parent mask w →
  frame_of (overscope mask) w !! name = None →
  frame_of (mask_resolved (bindings mask)) w !! name = None →
  ∃ fuel, base.size (envs w) = S (S (S fuel))
          ∧ findVar name (overscope mask) w
            = findVar_from (S fuel) name (mask_active (bindings mask)) w.
Proof.
  intros Hchain Ho Hr. pose proof (scope_chain_size _ _ _ Hchain) as Hsz.
  destruct Hchain as [(eo & Heo & Hno) (er & Her & Hnr) _ _].
  unfold frame_of in Ho, Hr. rewrite Heo in Ho. rewrite Her in Hr. simpl in *.
  destruct (base.size (envs w)) as [|[|[|fuel]]] eqn:Hfuel; [lia..|].
  exists fuel. split; [done|]. unfold findVar. rewrite Hfuel.
  rewrite (findVar_from_skip _ _ _ _ eo Heo Ho), Hno.
  by rewrite (findVar_from_skip _ _ _ _ er Her Hr), Hnr.
Qed.

(** ** Construction of a mask *)

Lemma NoDup_three (a b c : env_id) : a ≠ b → a ≠ c → b ≠ c → NoDup [a; b; c].
Proof.
  intros Hab Hac Hbc. rewrite !NoDup_cons, !not_elem_of_cons.
  repeat split; try done; try apply not_elem_of_nil. apply NoDup_nil_2.
Qed.

(** The world the constructor of a mask over the general layer builds. *)
Lemma DataMask_new_general_eq parent w :
  let cb := fresh (dom (callbacks w)) in
  let act := fresh (dom (envs w)) in
  let res := fresh ({[act]} ∪ dom (envs w)) in
  let envs1 :=
    <[res := {| enclos := act; frame := ∅ |}]>
      (<[act := {| enclos := parent;
                   frame := list_to_map ((λ n, (n, Active {| weak_real := cb |}))
                              <$> get_variable_names (subsets w)) |}]>
         (envs w)) in
  let o := fresh (dom envs1) in
  DataMask_new (B := DataMask_bindings) parent w =
    Returns {| bindings := {| mask_active := act; mask_resolved := res;
                              callback := cb |};
               overscope := o |}
      {| envs := <[o := {| enclos := res;
                           frame := {[ ".data" := Plain (DataPronoun act) ]} |}]> envs1;
         callbacks :=
           <[cb := Some {| indices := None; mask_env := EnvSxp res;
                           proxy := {| proxy_real := cb |} |}]> (callbacks w);
         slicing := slicing w;
         subsets := {| columns := columns (subsets w); resolved := ∅ |};
         warnings := warnings w |}.
Proof.
  intros cb act res envs1 o. unfold DataMask_new. unfold_M. simpl.
  rewrite DataMask_bindings_new_eq. fold cb act res. simpl.
  unfold alloc_env. simpl. fold envs1. fold o.
  unfold set_envs. simpl. rewrite alter_insert_eq. simpl.
  by rewrite insert_empty.
Qed.

(** X1.  From every world the constructor of a mask over the general layer
    returns.  The environments of the new world are those of the old world,
    unchanged, and exactly three more, none of which existed before: the
    evaluation scope, which binds the data pronoun name to the pronoun of
    the active scope and is enclosed by the resolved scope; the empty
    resolved scope, enclosed by the active scope; the active scope, enclosed
    by the scope the mask was built under, with one active binding per
    declared name.  The resolver is new and alive, targets the resolved
    scope, and has no index installed; the resolvers and control blocks that
    were there are as before. *)
Theorem DataMask_construction_general (parent : env_id) (w : World) :
  ∃ (mask : DataMask DataMask_bindings) (w' : World),
    DataMask_new parent w = Returns mask w'
    ∧ scope_chain parent mask w'
    ∧ resolver_ok (bindings mask) w'
    ∧ installed_index (callback (bindings mask)) w' = None
    ∧ envs w !! overscope mask = None
    ∧ envs w !! mask_resolved (bindings mask) = None
    ∧ envs w !! mask_active (bindings mask) = None
    ∧ frame_of (overscope mask) w' !! ".data"
        = Some (Plain (DataPronoun (mask_active (bindings mask))))
    ∧ frame_of (mask_resolved (bindings mask)) w' = ∅
    ∧ (∀ name, frame_of (mask_active (bindings mask)) w' !! name =
         if decide (name ∈ get_variable_names (subsets w))
         then Some (Active {| weak_real := callback (bindings mask) |}) else None)
    ∧ (∀ rho, rho ≠ overscope mask → rho ≠ mask_resolved (bindings mask) →
         rho ≠ mask_active (bindings mask) → envs w' !! rho = envs w !! rho)
    ∧ dom (envs w') = {[ overscope mask; mask_resolved (bindings mask);
                         mask_active (bindings mask) ]} ∪ dom (envs w)
    ∧ callbacks w !! callback (bindings mask) = None
    ∧ (∀ cb, cb ≠ callback (bindings mask) → callbacks w' !! cb = callbacks w !! cb)
    ∧ slicing w' = slicing w
    ∧ columns (subsets w') = columns (subsets w)
    ∧ warnings w' = warnings w.
Proof.
  eexists _, _. split; [apply DataMask_new_general_eq|]. simpl.
  set (cb := fresh (dom (callbacks w))).
  set (act := fresh (dom (envs w))).
  set (res := fresh ({[act]} ∪ dom (envs w))).
  set (envs1 := <[res := _]> (<[act := _]> (envs w))).
  set (o := fresh (dom envs1)).
  assert (act ∉ dom (envs w)) as Hact by apply is_fresh.
  assert (res ∉ {[act]} ∪ dom (envs w)) as Hres by apply is_fresh.
  assert (o ∉ dom envs1) as Ho by apply is_fresh.
  assert (act ≠ res) as Har by set_solver.
  assert (o ≠ res ∧ o ≠ act ∧ o ∉ dom (envs w)) as (Hor & Hoa & Hoold).
  { subst envs1. rewrite !dom_insert_L in Ho. set_solver. }
  assert (envs w !! act = None) as Hact' by by apply not_elem_of_dom.
  assert (envs w !! res = None) as Hres' by (apply not_elem_of_dom; set_solver).
  assert (envs w !! o = None) as Ho' by by apply not_elem_of_dom.
  split.
  { split; simpl.
    - eexists. by rewrite lookup_insert_eq.
    - eexists. rewrite lookup_insert_ne by done. subst envs1.
      by rewrite lookup_insert_eq.
    - eexists. rewrite lookup_insert_ne by done. subst envs1.
      rewrite lookup_insert_ne by done. by rewrite lookup_insert_eq.
    - by apply NoDup_three. }
  split.
  { eexists. simpl. by rewrite lookup_insert_eq. }
  split.
  { unfold installed_index. simpl. by rewrite lookup_insert_eq. }
  do 3 (split; [done|]).
  split.
  { unfold frame_of. simpl. rewrite lookup_insert_eq. simpl.
    apply lookup_singleton_eq. }
  split.
  { unfold frame_of. simpl. rewrite lookup_insert_ne by done. subst envs1.
    by rewrite lookup_insert_eq. }
  split.
  { intros name. unfold frame_of. simpl. rewrite lookup_insert_ne by done.
    subst envs1. rewrite lookup_insert_ne by done. rewrite lookup_insert_eq.
    simpl. apply lookup_active_frame. }
  split.
  { intros rho H1 H2 H3. subst envs1. by rewrite !lookup_insert_ne. }
  split.
  { subst envs1. rewrite !dom_insert_L. by rewrite !(assoc_L (∪)). }
  split; [apply not_elem_of_dom, is_fresh|].
  split; [|done].
  intros cb' Hne. by rewrite lookup_insert_ne.
Qed.

Lemma scope_chain_links parent mask w w' :
  links w w' → scope_chain parent mask w → scope_chain parent mask w'.
Proof.
  intros Hl [(eo & Heo & Hno) (er & Her & Hnr) (ea & Hea & Hna) Hnd].
  destruct (Hl _ _ Heo) as (eo' & ? & ?).
  destruct (Hl _ _ Her) as (er' & ? & ?).
  destruct (Hl _ _ Hea) as (ea' & ? & ?).
  split; [exists eo'|exists er'|exists ea'|done]; split; congruence.
Qed.

(** ** The mask across evaluations *)

(** X2.  Let the resolver of a mask over the general layer be in order, and
    let [eval] with a valid index object end, by a value or by an error,
    whatever the engine did.  Then the resolver is still in order (alive,
    targeting the resolved scope, holding its forwarding proxy), the index
    of this call is the one installed, the dataset and the caller's index
    objects are as before, and every other resolver of the world is
    untouched. *)
Theorem eval_keeps_mask
    (engine : SEXP → env_id → Prog) (mask : DataMask DataMask_bindings)
    (expr : SEXP) (a : addr) (i : SlicingIndex) (w w' : World)
    (Hresolver : resolver_ok (bindings mask) w)
    (Hindex : slicing w !! a = Some i)
    (Hend : ends_in (eval engine mask expr a w) w') :
  resolver_ok (bindings mask) w'
  ∧ installed_index (callback (bindings mask)) w' = Some a
  ∧ slicing w' = slicing w
  ∧ columns (subsets w') = columns (subsets w)
  ∧ (∀ cb, cb ≠ callback (bindings mask) → callbacks w' !! cb = callbacks w !! cb).
Proof.
  destruct Hresolver as (g & Hg & Henv & Hproxy).
  pose proof (general_update_eq (bindings mask) a w g Hg) as Hupd.
  erewrite eval_eq in Hend; [|exact Hupd|done].
  apply run_stable in Hend as [Hcb Hsl Hcol _]. simpl in Hcb, Hsl, Hcol.
  split.
  { eexists. rewrite Hcb, lookup_insert_eq. by repeat split. }
  split; [unfold installed_index; by rewrite Hcb, lookup_insert_eq|].
  do 2 (split; [done|]).
  intros cb Hne. rewrite Hcb. by rewrite lookup_insert_ne.
Qed.

(** ** References to columns *)

(** X3.  With the scope chain and the resolver of a mask in order and an
    index installed whose object holds [i], a lookup from the evaluation
    scope of a name that no nearer frame binds and that the active scope
    binds to the layer's weak proxy is the call
    [subsets.get(name, i, resolved)]. *)
Theorem lookup_reaches_subsets_get
    (parent : env_id) (mask : DataMask DataMask_bindings) (w : World)
    (a : addr) (i : SlicingIndex) (name : string)
    (Hchain : scope_chain parent mask w)
    (Hresolver : resolver_ok (bindings mask) w)
    (Hinstalled : installed_index (callback (bindings mask)) w = Some a)
    (Hindex : slicing w !! a = Some i)
    (Hscope : frame_of (overscope mask) w !! name = None)
    (Hresolved : frame_of (mask_resolved (bindings mask)) w !! name = None)
    (Hactive : frame_of (mask_active (bindings mask)) w !! name
                 = Some (Active {| weak_real := callback (bindings mask) |})) :
  findVar name (overscope mask) w
    = subsets_get name i (EnvSxp (mask_resolved (bindings mask))) w.
Proof.
  destruct (findVar_reaches_active _ _ _ _ Hchain Hscope Hresolved)
    as (fuel & _ & ->).
  destruct Hchain as [_ _ (ea & Hea & _) _].
  unfold frame_of in Hactive. rewrite Hea in Hactive. simpl in Hactive.
  rewrite (findVar_from_active _ _ _ _ _ _ Hea Hactive).
  destruct Hresolver as (g & Hg & Henv & _).
  unfold installed_index in Hinstalled. rewrite Hg in Hinstalled.
  rewrite <- Henv. by apply hybrid_get_callback_eq with a.
Qed.

(** X4.  Let the binding layer of a mask be destroyed while the mask's
    environments live on.  The destructor leaves every environment as it
    is, empties the cache and expires the resolver.  From then on a lookup
    from the evaluation scope of a name that no nearer frame binds and that
    the active scope binds to the layer's weak proxy returns [R_NilValue]
    and adds one warning; it is never undefined behaviour. *)
Theorem leaked_scope_lookup_is_recoverable
    (parent : env_id) (mask : DataMask DataMask_bindings) (w w' : World)
    (name : string)
    (Hchain : scope_chain parent mask w)
    (Hdestroyed : DataMask_bindings_delete (bindings mask) w = Returns tt w')
    (Hscope : frame_of (overscope mask) w !! name = None)
    (Hresolved : frame_of (mask_resolved (bindings mask)) w !! name = None)
    (Hactive : frame_of (mask_active (bindings mask)) w !! name
                 = Some (Active {| weak_real := callback (bindings mask) |})) :
  envs w' = envs w
  ∧ resolved (subsets w') = ∅
  ∧ callbacks w' !! callback (bindings mask) = Some None
  ∧ (∀ cb, cb ≠ callback (bindings mask) → callbacks w' !! cb = callbacks w !! cb)
  ∧ findVar name (overscope mask) w'
      = Returns R_NilValue (set_warnings (λ l, l ++ [stale_warning]) w').
Proof.
  pose proof (delete_expires _ _ _ Hdestroyed) as Hexp.
  unfold DataMask_bindings_delete, subsets_clear in Hdestroyed. unfold_M.
  injection Hdestroyed as <-.
  split; [done|]. split; [done|]. split; [exact Hexp|]. split.
  { intros cb Hne. simpl. by rewrite lookup_insert_ne. }
  set (w' := set_callbacks _ _) in *.
  assert (scope_chain parent mask w') as Hchain'
    by (apply (scope_chain_links parent mask w); [by apply links_same|done]).
  destruct (findVar_reaches_active _ _ w' name Hchain' Hscope Hresolved)
    as (fuel & _ & ->).
  destruct Hchain as [_ _ (ea & Hea & _) _].
  unfold frame_of in Hactive. rewrite Hea in Hactive. simpl in Hactive.
  rewrite (findVar_from_active _ _ _ w' ea _ Hea Hactive).
  unfold hybrid_get_callback. simpl. rewrite weak_get_subset_cases. simpl.
  simpl in Hexp. by rewrite Hexp.
Qed.

(** X5.  A mask does not intercept names it does not bind: when none of the
    evaluation scope, the resolved scope and the active scope binds a name,
    and the scope the mask was built under, a fourth environment, binds it
    to a value, a lookup from the evaluation scope returns that value and
    changes nothing. *)
Theorem lookup_falls_through_to_parent
    (parent : env_id) (mask : DataMask DataMask_bindings) (w : World)
    (ep : Environment) (name : string) (v : SEXP)
    (Hchain : scope_chain parent mask w)
    (Hparent : envs w !! parent = Some ep)
    (Hfourth : parent ∉ [overscope mask; mask_resolved (bindings mask);
                          mask_active (bindings mask)])
    (Hscope : frame_of (overscope mask) w !! name = None)
    (Hresolved : frame_of (mask_resolved (bindings mask)) w !! name = None)
    (Hactive : frame_of (mask_active (bindings mask)) w !! name = None)
    (Hbound : frame ep !! name = Some (Plain v)) :
  findVar name (overscope mask) w = Returns v w.
Proof.
  destruct (findVar_reaches_active _ _ _ _ Hchain Hscope Hresolved)
    as (fuel & Hsz & ->).
  assert (4 ≤ base.size (envs w)) as Hfour.
  { destruct Hchain as [(eo & Heo & _) (er & Her & _) (ea & Hea & _) Hnd].
    apply (env_count [parent; overscope mask; mask_resolved (bindings mask);
                      mask_active (bindings mask)]).
    - by apply NoDup_cons.
    - intros rho Hrho.
      repeat (apply elem_of_cons in Hrho as [->|Hrho]; [eauto|]).
      by apply elem_of_nil in Hrho. }
  destruct fuel as [|fuel]; [lia|].
  destruct Hchain as [_ _ (ea & Hea & Hna) _].
  unfold frame_of in Hactive. rewrite Hea in Hactive. simpl in Hactive.
  rewrite (findVar_from_skip _ _ _ _ ea Hea Hactive), Hna.
  by apply findVar_from_plain with ep.
Qed.

(** ** Lifetimes *)

(** X6.  An expired weak proxy stays expired.  When a resolver has been
    destroyed, a mask can be constructed afterwards, and in the world after
    that construction, as in every world that an evaluation on the new mask
    ends in, a request through a weak proxy on the destroyed resolver
    returns [R_NilValue] with a warning: it never reaches the resolver of
    the new mask. *)
Theorem expired_proxy_never_retargets
    (cb : addr) (w : World) (parent : env_id) (name : string)
    (Hexpired : callbacks w !! cb = Some None) :
  ∃ (mask : DataMask DataMask_bindings) (w' : World),
    DataMask_new parent w = Returns mask w'
    ∧ get_subset (WeakProxy {| weak_real := cb |}) name w'
        = Returns R_NilValue (set_warnings (λ l, l ++ [stale_warning]) w')
    ∧ ∀ engine expr a i w'',
        slicing w' !! a = Some i →
        ends_in (eval engine mask expr a w') w'' →
        get_subset (WeakProxy {| weak_real := cb |}) name w''
          = Returns R_NilValue (set_warnings (λ l, l ++ [stale_warning]) w'').
Proof.
  eexists _, _. split; [apply DataMask_new_general_eq|]. simpl.
  set (cb' := fresh (dom (callbacks w))).
  assert (cb' ≠ cb) as Hne.
  { intros Heq. pose proof (is_fresh (dom (callbacks w))) as Hf.
    fold cb' in Hf. rewrite Heq in Hf. apply Hf, elem_of_dom. eauto. }
  split.
  { rewrite weak_get_subset_cases. simpl.
    rewrite lookup_insert_ne by done. by rewrite Hexpired. }
  intros engine expr a i w'' Hi Hend.
  erewrite eval_eq in Hend;
    [|apply general_update_eq; simpl; apply lookup_insert_eq|done].
  apply run_stable in Hend as [Hcb _ _ _]. simpl in Hcb.
  rewrite weak_get_subset_cases. simpl. rewrite Hcb.
  rewrite !lookup_insert_ne by done. by rewrite Hexpired.
Qed.

(** X7.  The lock of a weak proxy guards the resolver, not the index object
    the resolver points to.  With the resolver alive and an index pointer
    installed whose object no longer exists, a request through the weak
    proxy, like one made on the resolver, is undefined behaviour for every
    name: no warning, no [R_NilValue]. *)
Theorem freed_index_is_not_guarded
    (cb : addr) (w : World) (g : GroupedHybridEval) (a : addr) (name : string)
    (Halive : callbacks w !! cb = Some (Some g))
    (Hinstalled : indices g = Some a)
    (Hfreed : slicing w !! a = None) :
  get_subset (WeakProxy {| weak_real := cb |}) name w = Undefined DanglingReference
  ∧ get_subset (Resolver cb) name w = Undefined DanglingReference
  ∧ ∀ rho e, envs w !! rho = Some e →
      frame e !! name = Some (Active {| weak_real := cb |}) →
      findVar name rho w = Undefined DanglingReference.
Proof.
  assert (GroupedHybridEval_get_subset cb name w = Undefined DanglingReference)
    as Hres.
  { unfold GroupedHybridEval_get_subset, get_indices, deref_callback, deref_index.
    unfold_M. by rewrite Halive, Hinstalled, Hfreed. }
  assert (hybrid_get_callback name {| weak_real := cb |} w
    = Undefined DanglingReference) as Hweak.
  { unfold hybrid_get_callback. simpl. rewrite weak_get_subset_cases. simpl.
    by rewrite Halive. }
  split; [exact Hweak|]. split; [exact Hres|].
  intros rho e He Hb. by rewrite (findVar_active _ _ _ _ _ He Hb).
Qed.

(** ** The single-group layer in a mask *)

Lemma Natural_new_eq parent w :
  let rho := fresh (dom (envs w)) in
  Natural_new parent w =
    Returns {| mask_bindings := rho |}
      (set_envs <[rho := {| enclos := parent;
                            frame := installed (columns (subsets w)) ∅ |}]> w).
Proof.
  intros rho. unfold Natural_new, child_env, alloc_env. unfold_M. fold rho.
  unfold get_variable_names. simpl.
  rewrite (install_columns_eq (columns (subsets w)) [] rho) by done.
  unfold set_envs. simpl. by rewrite alter_insert_eq.
Qed.

Lemma DataMask_new_natural_eq parent w :
  let rho := fresh (dom (envs w)) in
  let envs1 := <[rho := {| enclos := parent;
                           frame := installed (columns (subsets w)) ∅ |}]> (envs w) in
  let o := fresh (dom envs1) in
  DataMask_new (B := DataMask_bindings_Natural) parent w =
    Returns {| bindings := {| mask_bindings := rho |}; overscope := o |}
      (set_envs (λ _, <[o := {| enclos := rho;
                                frame := {[ ".data" := Plain (DataPronoun rho) ]} |}]>
                        envs1) w).
Proof.
  intros rho envs1 o. unfold DataMask_new. unfold_M. simpl.
  rewrite Natural_new_eq. fold rho. simpl.
  unfold alloc_env. simpl. fold envs1. fold o.
  unfold set_envs. simpl. rewrite alter_insert_eq. simpl.
  by rewrite insert_empty.
Qed.

(** X8.  From every world the constructor of a mask over the single-group
    layer returns.  The environments of the new world are those of the old
    world, unchanged, and exactly two more, neither of which existed before:
    the evaluation scope, which binds the data pronoun name to the pronoun
    of the bindings scope and is enclosed by the bindings scope; and the
    bindings scope, enclosed by the scope the mask was built under, which
    binds the declared names to their columns and nothing else.  It creates
    no resolver and leaves the subset cache, the caller's indices and the
    warnings as they were. *)
Theorem DataMask_construction_natural (parent : env_id) (w : World) :
  ∃ (mask : DataMask DataMask_bindings_Natural) (w' : World),
    DataMask_new parent w = Returns mask w'
    ∧ natural_chain parent mask w'
    ∧ envs w !! overscope mask = None
    ∧ envs w !! mask_bindings (bindings mask) = None
    ∧ frame_of (overscope mask) w' !! ".data"
        = Some (Plain (DataPronoun (mask_bindings (bindings mask))))
    ∧ (∀ name, frame_of (mask_bindings (bindings mask)) w' !! name =
         (λ c, Plain (IntegerSxp c)) <$>
           column_of name (reverse (columns (subsets w))))
    ∧ (∀ rho, rho ≠ overscope mask → rho ≠ mask_bindings (bindings mask) →
         envs w' !! rho = envs w !! rho)
    ∧ dom (envs w') = {[ overscope mask; mask_bindings (bindings mask) ]}
                      ∪ dom (envs w)
    ∧ callbacks w' = callbacks w
    ∧ subsets w' = subsets w
    ∧ slicing w' = slicing w
    ∧ warnings w' = warnings w.
Proof.
  eexists _, _. split; [apply DataMask_new_natural_eq|]. simpl.
  set (rho := fresh (dom (envs w))).
  set (envs1 := <[rho := _]> (envs w)).
  set (o := fresh (dom envs1)).
  assert (rho ∉ dom (envs w)) as Hrho by apply is_fresh.
  assert (o ∉ dom envs1) as Ho by apply is_fresh.
  assert (o ≠ rho ∧ o ∉ dom (envs w)) as (Hne & Hoold).
  { subst envs1. rewrite dom_insert_L in Ho. set_solver. }
  assert (envs w !! rho = None) as Hrho' by by apply not_elem_of_dom.
  assert (envs w !! o = None) as Ho' by by apply not_elem_of_dom.
  split.
  { split; simpl.
    - eexists. by rewrite lookup_insert_eq.
    - eexists. rewrite lookup_insert_ne by done. subst envs1.
      by rewrite lookup_insert_eq.
    - done. }
  do 2 (split; [done|]).
  split.
  { unfold frame_of. simpl. rewrite lookup_insert_eq. simpl.
    apply lookup_singleton_eq. }
  split.
  { intros name. unfold frame_of. simpl. rewrite lookup_insert_ne by done.
    subst envs1. rewrite lookup_insert_eq. simpl. rewrite lookup_installed.
    by destruct (column_of name (reverse (columns (subsets w)))). }
  split.
  { intros rho' H1 H2. subst envs1. by rewrite !lookup_insert_ne. }
  split; [|done].
  subst envs1. rewrite !dom_insert_L. by rewrite !(assoc_L (∪)).
Qed.

(** X9.  On a mask over the single-group layer, a name bound in the bindings
    scope and not in the evaluation scope reads as its bound value from the
    evaluation scope, with no [update] ever made; and whatever valid index
    object [eval] is given, the engine starts in a world where that name,
    unless it is one of the two metadata names, still reads as the same
    value: the index decides the metadata, never the columns. *)
Theorem natural_lookup_ignores_index
    (engine : SEXP → env_id → Prog) (parent : env_id)
    (mask : DataMask DataMask_bindings_Natural) (w : World)
    (name : string) (v : SEXP)
    (Hchain : natural_chain parent mask w)
    (Hscope : frame_of (overscope mask) w !! name = None)
    (Hbound : frame_of (mask_bindings (bindings mask)) w !! name = Some (Plain v)) :
  findVar name (overscope mask) w = Returns v w
  ∧ ∀ expr a i,
      slicing w !! a = Some i →
      name ≠ "..group_size" → name ≠ "..group_number" →
      let w2 := with_metadata i (overscope mask) w in
      eval engine mask expr a w = Rcpp_eval engine expr (overscope mask) w2
      ∧ findVar name (overscope mask) w2 = Returns v w2.
Proof.
  assert (∀ w2, natural_chain parent mask w2 →
    frame_of (overscope mask) w2 !! name = None →
    frame_of (mask_bindings (bindings mask)) w2 !! name = Some (Plain v) →
    findVar name (overscope mask) w2 = Returns v w2) as Hread.
  { intros w2 [(eo & Heo & Hno) (eb & Heb & _) Hne] Ho Hb.
    assert (2 ≤ base.size (envs w2)) as Hsz.
    { apply (env_count [overscope mask; mask_bindings (bindings mask)]).
      - rewrite !NoDup_cons, !not_elem_of_cons.
        repeat split; try done; try apply not_elem_of_nil. apply NoDup_nil_2.
      - intros rho Hrho.
        repeat (apply elem_of_cons in Hrho as [->|Hrho]; [eauto|]).
        by apply elem_of_nil in Hrho. }
    unfold frame_of in Ho, Hb. rewrite Heo in Ho. rewrite Heb in Hb.
    simpl in Ho, Hb. unfold findVar.
    destruct (base.size (envs w2)) as [|[|fuel]]; [lia..|].
    rewrite (findVar_from_skip _ _ _ _ eo Heo Ho), Hno.
    by apply findVar_from_plain with eb. }
  split; [by apply Hread|].
  intros expr a i Hi Hn1 Hn2 w2. subst w2. split; [by apply eval_eq|].
  pose proof Hchain as [(eo & Heo & Hno) (eb & Heb & Hnb) Hne].
  apply Hread.
  - split; [| |done].
    + eexists. split; [by apply with_metadata_frame|done].
    + eexists. split; [|exact Hnb]. by rewrite with_metadata_other.
  - by rewrite frame_of_with_metadata_other.
  - rewrite frame_of_with_metadata_other; [done|].
    intros Heq. by destruct Hne.
Qed.

(** ** Successive index changes *)

(** X10.  On the general layer, an [update] that is followed by another
    [update] with nothing in between leaves no trace: the world after the
    two is the world after the second alone.  In particular [update] with
    the same index twice is [update] once. *)
Theorem update_overrides_update
    (b : DataMask_bindings) (a1 a2 : addr) (w w1 : World) (g : GroupedHybridEval)
    (Halive : callbacks w !! callback b = Some (Some g))
    (Hfirst : update b a1 w = Returns tt w1) :
  update b a2 w1 = update b a2 w.
Proof.
  rewrite (general_update_eq _ _ _ g Halive) in Hfirst.
  injection Hfirst as <-.
  rewrite (general_update_eq b a2 w g Halive).
  erewrite general_update_eq; [|simpl; apply lookup_insert_eq].
  simpl. f_equal. f_equal.
  - rewrite alter_alter_eq. apply alter_ext. intros e _. simpl. f_equal.
    apply map_filter_id. intros k x _. simpl. apply lookup_empty.
  - by rewrite insert_insert_eq.
Qed.

(** ** Shadowing *)

(** X11.  The resolved scope shadows the active scope.  When the resolved
    scope binds a name to a value and the evaluation scope does not bind it,
    a lookup from the evaluation scope returns that value and changes
    nothing, whatever the state of the resolver: no callback runs, so the
    lookup is defined even with no index installed or with the resolver
    destroyed. *)
Theorem resolved_scope_shadows_active
    (parent : env_id) (mask : DataMask DataMask_bindings) (w : World)
    (name : string) (v : SEXP)
    (Hchain : scope_chain parent mask w)
    (Hscope : frame_of (overscope mask) w !! name = None)
    (Hresolved : frame_of (mask_resolved (bindings mask)) w !! name
                   = Some (Plain v)) :
  findVar name (overscope mask) w = Returns v w
  ∧ findVar name (mask_resolved (bindings mask)) w = Returns v w.
Proof.
  pose proof (scope_chain_size _ _ _ Hchain) as Hsz.
  destruct Hchain as [(eo & Heo & Hno) (er & Her & _) _ _].
  unfold frame_of in Hscope, Hresolved.
  rewrite Heo in Hscope. rewrite Her in Hresolved. simpl in *.
  split; [|by apply findVar_plain with er].
  unfold findVar. destruct (base.size (envs w)) as [|[|fuel]]; [lia..|].
  rewrite (findVar_from_skip _ _ _ _ eo Heo Hscope), Hno.
  by apply findVar_from_plain with er.
Qed.

(** * The further properties at work on the example session *)

Ltac chain_by_computation :=
  split;
    [eexists; split; vm_compute; reflexivity
    |eexists; split; vm_compute; reflexivity
    |eexists; split; vm_compute; reflexivity
    |apply NoDup_three; vm_compute; discriminate].

Lemma example_built_chain : scope_chain 1%positive example_mask example_built.
Proof. chain_by_computation. Qed.

Lemma example_updated_chain : scope_chain 1%positive example_mask example_updated.
Proof. chain_by_computation. Qed.

Lemma example_built_z_chain : scope_chain 1%positive example_mask example_built_z.
Proof. chain_by_computation. Qed.

Lemma example_evaluated_chain :
  scope_chain 1%positive example_mask example_evaluated.
Proof. chain_by_computation. Qed.

Lemma example_built_resolver : resolver_ok (bindings example_mask) example_built.
Proof. eexists. repeat split; vm_compute; reflexivity. Qed.

Lemma example_updated_resolver :
  resolver_ok (bindings example_mask) example_updated.
Proof. eexists. repeat split; vm_compute; reflexivity. Qed.

Lemma example_natural_chain :
  natural_chain 1%positive example_natural_mask example_natural_built.
Proof.
  split; [eexists; split; vm_compute; reflexivity..|vm_compute; discriminate].
Qed.

(** Witness of X1. *)
Lemma DataMask_construction_general_witness :
  ∃ mask w', DataMask_new 1%positive example_world = Returns mask w'
             ∧ scope_chain 1%positive mask w'
             ∧ resolver_ok (bindings mask) w'.
Proof.
  destruct (DataMask_construction_general 1%positive example_world)
    as (mask & w' & Hnew & Hchain & Hres & _).
  by exists mask, w'.
Defined.

(** Witness of X2: the resolver is in order after the column [x] is
    evaluated. *)
Lemma eval_keeps_mask_witness :
  ends_in (eval example_engine example_mask (SymSxp "x") 1%positive example_built)
    example_evaluated
  ∧ resolver_ok (bindings example_mask) example_evaluated
  ∧ installed_index 1%positive example_evaluated = Some 1%positive.
Proof.
  assert (ends_in
    (eval example_engine example_mask (SymSxp "x") 1%positive example_built)
    example_evaluated) as Hend by (vm_compute; reflexivity).
  split; [exact Hend|].
  destruct (eval_keeps_mask example_engine example_mask (SymSxp "x")
    1%positive example_index example_built example_evaluated
    example_built_resolver)
    as (Hres & Hinst & _); [vm_compute; reflexivity|exact Hend|].
  split; [exact Hres|exact Hinst].
Defined.

(** Witness of X3: after [update], the column [x] read from the evaluation
    scope is the call of [subsets.get]. *)
Lemma lookup_reaches_subsets_get_witness :
  installed_index 1%positive example_updated = Some 1%positive
  ∧ findVar "x" 4%positive example_updated
    = subsets_get "x" example_index (EnvSxp 3) example_updated.
Proof.
  assert (installed_index 1%positive example_updated = Some 1%positive)
    as Hinst by (vm_compute; reflexivity).
  split; [exact Hinst|].
  apply (lookup_reaches_subsets_get 1%positive example_mask example_updated
    1%positive example_index "x" example_updated_chain example_updated_resolver
    Hinst); vm_compute; reflexivity.
Defined.

(** Witness of X4: the column [x] read from the evaluation scope of the
    destroyed example mask. *)
Lemma leaked_scope_lookup_witness :
  DataMask_bindings_delete (bindings example_mask) example_updated
    = Returns tt example_destroyed
  ∧ findVar "x" 4%positive example_destroyed
    = Returns R_NilValue
        (set_warnings (λ l, l ++ [stale_warning]) example_destroyed).
Proof.
  assert (DataMask_bindings_delete (bindings example_mask) example_updated
    = Returns tt example_destroyed) as Hdel by (vm_compute; reflexivity).
  split; [exact Hdel|].
  refine (proj2 (proj2 (proj2 (proj2 (leaked_scope_lookup_is_recoverable
    1%positive example_mask example_updated example_destroyed "x"
    example_updated_chain Hdel _ _ _))))); vm_compute; reflexivity.
Defined.

(** Witness of X5: the variable [z] of the enclosing scope read through the
    mask. *)
Lemma lookup_falls_through_witness :
  envs example_built_z !! 1%positive
    = Some {| enclos := 1; frame := {[ "z" := Plain (wrap 9) ]} |}
  ∧ findVar "z" 4%positive example_built_z = Returns (wrap 9) example_built_z.
Proof.
  assert (envs example_built_z !! 1%positive
    = Some {| enclos := 1; frame := {[ "z" := Plain (wrap 9) ]} |}) as Hp
    by (vm_compute; reflexivity).
  split; [exact Hp|].
  apply (lookup_falls_through_to_parent 1%positive example_mask example_built_z
    _ "z" (wrap 9) example_built_z_chain Hp).
  - simpl. rewrite !not_elem_of_cons. repeat split; try discriminate.
    apply not_elem_of_nil.
  - vm_compute. reflexivity.
  - vm_compute. reflexivity.
  - vm_compute. reflexivity.
  - vm_compute. reflexivity.
Defined.

(** Witness of X6: a mask built after the example mask was destroyed. *)
Lemma expired_proxy_witness :
  callbacks example_destroyed !! 1%positive = Some None
  ∧ ∃ (mask : DataMask DataMask_bindings) w',
      DataMask_new 1%positive example_destroyed = Returns mask w'
      ∧ get_subset (WeakProxy {| weak_real := 1 |}) "x" w'
                 = Returns R_NilValue
                     (set_warnings (λ l, l ++ [stale_warning]) w').
Proof.
  assert (callbacks example_destroyed !! 1%positive = Some None) as Hexp
    by (vm_compute; reflexivity).
  split; [exact Hexp|].
  destruct (expired_proxy_never_retargets 1%positive example_destroyed
    1%positive "x" Hexp) as (mask & w' & Hnew & Hnil & _).
  by exists mask, w'.
Defined.

(** Witness of X7: the index object is gone, the resolver is not. *)
Lemma freed_index_witness :
  slicing example_freed !! 1%positive = None
  ∧ get_subset (WeakProxy {| weak_real := 1 |}) "x" example_freed
    = Undefined DanglingReference.
Proof.
  assert (slicing example_freed !! 1%positive = None) as Hfreed
    by (vm_compute; reflexivity).
  split; [exact Hfreed|].
  refine (proj1 (freed_index_is_not_guarded 1%positive example_freed
    {| indices := Some 1%positive; mask_env := EnvSxp 3;
       proxy := {| proxy_real := 1 |} |} 1%positive "x" _ _ Hfreed)).
  - vm_compute. reflexivity.
  - reflexivity.
Defined.

(** Witness of X8. *)
Lemma DataMask_construction_natural_witness :
  ∃ mask w', DataMask_new 1%positive example_world = Returns mask w'
             ∧ natural_chain 1%positive mask w'
             ∧ callbacks w' = callbacks example_world.
Proof.
  destruct (DataMask_construction_natural 1%positive example_world)
    as (mask & w' & Hnew & Hchain & _ & _ & _ & _ & _ & _ & Hcb & _).
  by exists mask, w'.
Defined.

(** Witness of X9: the column [x] on the single-group mask, with an index of
    three rows. *)
Lemma natural_lookup_witness :
  findVar "x" 3%positive example_natural_built
    = Returns (IntegerSxp [10; 20; 30; 40; 50; 60; 70; 80]%Z) example_natural_built
  ∧ findVar "x" 3%positive (with_metadata example_index 3%positive example_natural_built)
    = Returns (IntegerSxp [10; 20; 30; 40; 50; 60; 70; 80]%Z)
        (with_metadata example_index 3%positive example_natural_built).
Proof.
  destruct (natural_lookup_ignores_index example_engine 1%positive
    example_natural_mask example_natural_built "x"
    (IntegerSxp [10; 20; 30; 40; 50; 60; 70; 80]%Z) example_natural_chain)
    as (Hread & Heval); [vm_compute; reflexivity..|].
  split; [exact Hread|].
  refine (proj2 (Heval (SymSxp "x") 1%positive example_index _ _ _));
    [vm_compute; reflexivity|discriminate..].
Defined.

(** Witness of X10: [update] with the first index, then with the second. *)
Lemma update_overrides_witness :
  update (bindings example_mask) 1%positive example_built
    = Returns tt example_updated
  ∧ update (bindings example_mask) 2%positive example_updated
    = update (bindings example_mask) 2%positive example_built.
Proof.
  assert (update (bindings example_mask) 1%positive example_built
    = Returns tt example_updated) as Hupd by (vm_compute; reflexivity).
  split; [exact Hupd|].
  refine (update_overrides_update (bindings example_mask) 1%positive 2%positive
    example_built example_updated example_resolver _ Hupd).
  vm_compute. reflexivity.
Defined.

(** Witness of X11: once evaluated, the column [x] is read from the resolved
    scope. *)
Lemma resolved_scope_shadows_witness :
  frame_of 3%positive example_evaluated !! "x"
    = Some (Plain (IntegerSxp [30; 60; 80]%Z))
  ∧ findVar "x" 4%positive example_evaluated
    = Returns (IntegerSxp [30; 60; 80]%Z) example_evaluated.
Proof.
  assert (frame_of 3%positive example_evaluated !! "x"
    = Some (Plain (IntegerSxp [30; 60; 80]%Z))) as Hres
    by (vm_compute; reflexivity).
  split; [exact Hres|].
  refine (proj1 (resolved_scope_shadows_active 1%positive example_mask
    example_evaluated "x" _ example_evaluated_chain _ Hres)).
  vm_compute. reflexivity.
Defined.
